(** * WCdownloader: a shallow embedding of [WCdownloader.py]

    The script crawls a category tree of a MediaWiki site breadth first,
    buckets the image files it finds by depth, prints a summary and
    downloads the files of the first depths.

    Conventions of the embedding.
    - Python integers are [Z]; counters that only count up from 0 are [nat].
    - Python strings are [string]; the characters the code inspects are all
      ASCII, so working on the UTF-8 bytes gives the same result.
    - [dict]/[defaultdict] are [gmap], [set] is [gset], [deque] is a list
      popped at its head and extended at its tail.
    - The outside world (the two HTTP endpoints, the output directory, the
      clock and the terminal) is the record [world]; every effect of the
      code is an explicit transformation of it.
    - [for] loops recurse on the list they range over; [while] loops take
      a [fuel] argument and answer [None] when it runs out.
    - Of the output of the script only the progress line of the scanner and
      the numbers of the summary table are kept; pauses are logged in
      milliseconds, so that the 0.2 s throttle is the integer 200.

    What is assumed of the world: a response whose status is not an error
    carries a body that parses ([resp.json()] does not raise), making the
    output directory and writing a file succeed, and only
    [requests.RequestException] is ever raised by a request.  The pauses
    are those of the attempt cap 5 of the program, all of which
    [time.sleep] accepts. *)

From Stdlib Require Import ZArith Ascii String List.
From stdpp Require Import base option list gmap strings fin_maps fin_sets sorting.

Open Scope string_scope.
Open Scope list_scope.
Open Scope Z_scope.

(** ** Strings *)

Module Str.

Fixpoint map (f : ascii → ascii) (s : string) : string :=
  match s with
  | EmptyString => EmptyString
  | String c s' => String (f c) (map f s')
  end.

Fixpoint forallb (f : ascii → bool) (s : string) : bool :=
  match s with
  | EmptyString => true
  | String c s' => f c && forallb f s'
  end.

(** [strip p s] is [Some r] when [s = p ++ r]. *)
Fixpoint strip (p s : string) : option string :=
  match p with
  | EmptyString => Some s
  | String a p' =>
      match s with
      | EmptyString => None
      | String b s' => if Ascii.eqb a b then strip p' s' else None
      end
  end.

(** [str.removeprefix(prefix)] *)
Definition removeprefix (s prefix : string) : string :=
  default s (strip prefix s).

(** [str.endswith(suffix)] *)
Definition endswith (s suffix : string) : bool :=
  bool_decide (is_Some (strip (String.rev suffix) (String.rev s))).

(** ASCII lower-casing of one character. *)
Definition lower_ascii (c : ascii) : ascii :=
  let n := nat_of_ascii c in
  if ((65 <=? n) && (n <=? 90))%nat then ascii_of_nat (n + 32) else c.

Definition lower : string → string := map lower_ascii.

Definition newline : string := String (ascii_of_nat 10) EmptyString.

(** What [$] tolerates at the end of the subject: one final newline. *)
Definition drop_final_newline (s : string) : string :=
  match strip newline (String.rev s) with
  | Some r => String.rev r
  | None => s
  end.

End Str.

(** ** Constants of the script *)

(** [EXTENSIONS.search(title)] for the compiled pattern
    [\.(jpg|jpeg|png)$] with [re.IGNORECASE].  The pattern is anchored at the end
    of the title ([$] also matches just before one final newline), and no
    non-ASCII character folds to one of its letters. *)
Definition EXTENSIONS_search (title : string) : bool :=
  let t := Str.lower (Str.drop_final_newline title) in
  Str.endswith t ".jpg" || Str.endswith t ".jpeg" || Str.endswith t ".png".

(** The nine characters of the class of [sanitize_filename]:
    less-than, greater-than, colon, double quote, slash, backslash,
    vertical bar, question mark and star. *)
Definition invalid_chars : list ascii :=
  ascii_of_nat 60 :: ascii_of_nat 62 :: ascii_of_nat 58 :: ascii_of_nat 34 ::
  ascii_of_nat 47 :: ascii_of_nat 92 :: ascii_of_nat 124 :: ascii_of_nat 63 ::
  ascii_of_nat 42 :: [].

Definition underscore : ascii := ascii_of_nat 95.

Definition is_invalid (c : ascii) : bool := bool_decide (c ∈ invalid_chars).

(** [sanitize_filename(name)]: [re.sub] of that class by an underscore. *)
Definition sanitize_filename (name : string) : string :=
  Str.map (λ c, if is_invalid c then underscore else c) name.

(** ** The outside world *)

(** What [requests.get] can do: raise a [RequestException] (connection
    error, timeout), or deliver a response with a status code and a body. *)
Inductive response (B : Type) : Type :=
  | ConnectionError
  | Http (status_code : Z) (body : B).
Arguments ConnectionError {B}.
Arguments Http {B} status_code body.

(** A member record of the API; its title is read with [.get], the empty
    string standing for a missing one. *)
Record member : Type := Member { title : option string }.

Definition get_title (m : member) : string := default EmptyString (title m).

(** The JSON document of one page of results:
    [data["query"]["categorymembers"]] and [data["continue"]["cmcontinue"]],
    with the empty list and the empty string as the defaults of the two
    [.get] chains. *)
Record page : Type := Page {
  categorymembers : list member;
  cmcontinue : string
}.

(** What the program does to the world, in order. *)
Inductive event : Type :=
  | Sleep (ms : Z)                                   (* time.sleep, in milliseconds *)
  | ApiGet (category cmtype continue_token : string) (* metadata request *)
  | FileGet (filename : string)                      (* Special:FilePath request *)
  | Scanning (category : string) (depth : Z).        (* the progress line *)

Global Instance event_eq_dec : EqDecision event.
Proof. solve_decision. Defined.

(** The answers the two endpoints will give, in the order of the requests
    (a request made when none is left fails to connect), the files of
    [OUTDIR] with their contents, and the trace of what was done. *)
Record world : Type := World {
  api : list (response page);
  filehost : list (response string);
  disk : gmap string string;
  trace : list event
}.

(** ** Effects, as a state monad over [world] *)

Definition St (A : Type) : Type := world → A * world.

Definition ret {A} (a : A) : St A := λ w, (a, w).

Definition bind {A B} (m : St A) (k : A → St B) : St B :=
  λ w, let (a, w') := m w in k a w'.

Notation "x <- c1 ;; c2" := (bind c1 (λ x, c2))
  (at level 100, c1 at next level, right associativity).
Notation "c1 ;; c2" := (bind c1 (λ _, c2))
  (at level 100, right associativity).

Definition emit (e : event) : St unit :=
  λ w, (tt, World (api w) (filehost w) (disk w) (trace w ++ [e])).

(** [time.sleep(seconds)], logged in milliseconds. *)
Definition sleep (ms : Z) : St unit := emit (Sleep ms).

(** The metadata request of [get_category_members]. *)
Definition api_get (category cmtype continue_token : string) : St (response page) :=
  emit (ApiGet category cmtype continue_token) ;;
  λ w, match api w with
       | [] => (ConnectionError, w)
       | r :: rs => (r, World rs (filehost w) (disk w) (trace w))
       end.

(** The download request of [download_files]. *)
Definition file_get (filename : string) : St (response string) :=
  emit (FileGet filename) ;;
  λ w, match filehost w with
       | [] => (ConnectionError, w)
       | r :: rs => (r, World (api w) rs (disk w) (trace w))
       end.

(** [os.path.exists(os.path.join(OUTDIR, name))], once [OUTDIR] exists:
    a sanitized name has no separator, so the path is either a file of the
    directory or, for the empty name, [.] and [..], a directory. *)
Definition path_exists (name : string) : St bool :=
  λ w, (bool_decide (is_Some (disk w !! name))
        || bool_decide (name ∈ [EmptyString; "."; ".."]), w).

(** [with open(outpath, "wb") as f: f.write(content)] *)
Definition write_file (name content : string) : St unit :=
  λ w, (tt, World (api w) (filehost w) (<[name := content]> (disk w)) (trace w)).

(** [resp.raise_for_status()] raises for the 4xx and 5xx codes. *)
Definition raises_for_status (status_code : Z) : bool :=
  (400 <=? status_code) && (status_code <? 600).

(** [range(n)] *)
Definition range (n : Z) : list Z := seqZ 0 n.

(** [for x in l: s = body(x, s)] with effects. *)
Fixpoint for_each {A S} (l : list A) (body : A → S → St S) (s : S) : St S :=
  match l with
  | [] => ret s
  | x :: l' => s' <- body x s ;; for_each l' body s'
  end.

(** ** Category Enumerator: [get_category_members] *)

(** The retry loop [for attempt in range(max_retries)] of one page request.
    [Some data] is the [break] after a successful request; [None] is either
    of the two [return results]: the one of the [except] branch at the last
    attempt and the one of the [else] branch of the exhausted loop. *)
Fixpoint api_attempts (max_retries : Z) (category cmtype continue_token : string)
    (attempts : list Z) : St (option page) :=
  match attempts with
  | [] => ret None
  | attempt :: rest =>
      let on_exception : St (option page) :=
        if attempt =? max_retries - 1 then ret None
        else sleep (1000 * 2 ^ attempt) ;;
             api_attempts max_retries category cmtype continue_token rest in
      sleep 200 ;;
      resp <- api_get category cmtype continue_token ;;
      match resp with
      | ConnectionError => on_exception
      | Http status_code data =>
          if status_code =? 429 then
            sleep (1000 * 2 ^ attempt) ;;
            api_attempts max_retries category cmtype continue_token rest
          else if raises_for_status status_code then on_exception
          else ret (Some data)
      end
  end.

(** The pagination loop [while True]. *)
Fixpoint get_members_loop (fuel : nat) (max_retries : Z) (category cmtype : string)
    (results : list member) (continue_token : string) (w : world)
    : option (list member * world) :=
  match fuel with
  | O => None
  | S fuel' =>
      let (r, w1) :=
        api_attempts max_retries category cmtype continue_token (range max_retries) w in
      match r with
      | None => Some (results, w1)
      | Some data =>
          let results' := results ++ categorymembers data in
          let continue_token' := cmcontinue data in
          if decide (continue_token' = EmptyString) then Some (results', w1)
          else get_members_loop fuel' max_retries category cmtype results' continue_token' w1
      end
  end.

Definition get_category_members (fuel : nat) (category cmtype : string)
    (max_retries : Z) (w : world) : option (list member * world) :=
  get_members_loop fuel max_retries category cmtype [] EmptyString w.

(** ** Tree Scanner: [scan_categories] *)

Record scan_state : Type := ScanState {
  queue : list (string * Z);
  processed : gset string;
  files_by_depth : gmap Z (list (string * string));
  categories_by_depth : gmap Z nat;
  env : world
}.

(** [queue.append((subcat_name, depth + 1))] for each subcategory. *)
Definition enqueue_subcats (depth : Z) (subcats : list member)
    (queue : list (string * Z)) : list (string * Z) :=
  foldl (λ q subcat, q ++ [(Str.removeprefix (get_title subcat) "Category:", depth + 1)])
        queue subcats.

(** [files_by_depth[depth].append((category, title))] for each image. *)
Definition collect_files (category : string) (depth : Z) (files : list member)
    (fbd : gmap Z (list (string * string))) : gmap Z (list (string * string)) :=
  foldl (λ fbd f,
           let title := get_title f in
           if EXTENSIONS_search title
           then <[depth := default [] (fbd !! depth) ++ [(category, title)]]> fbd
           else fbd)
        fbd files.

(** The body of [while queue] after [queue.popleft()]: [rest] is the queue
    without the popped entry [(category, depth)]. *)
Definition scan_entry (fuel : nat) (max_depth : Z) (category : string) (depth : Z)
    (rest : list (string * Z)) (st : scan_state) : option scan_state :=
  if bool_decide (category ∈ processed st) || (depth >? max_depth) then
    Some (ScanState rest (processed st) (files_by_depth st) (categories_by_depth st) (env st))
  else
    let processed' := processed st ∪ {[category]} in
    let categories' :=
      <[depth := S (default O (categories_by_depth st !! depth))]> (categories_by_depth st) in
    let (_, w0) := emit (Scanning category depth) (env st) in
    '(queue', w1) ←
      (if depth <? max_depth then
         '(subcats, w1) ← get_category_members fuel category "subcat" 5 w0;
         Some (enqueue_subcats depth subcats rest, w1)
       else Some (rest, w0));
    '(files, w2) ← get_category_members fuel category "file" 5 w1;
    Some (ScanState queue' processed' (collect_files category depth files (files_by_depth st))
                    categories' w2).

(** The loop [while queue]. *)
Fixpoint scan_loop (fuel : nat) (max_depth : Z) (st : scan_state) : option scan_state :=
  match fuel with
  | O => None
  | S fuel' =>
      match queue st with
      | [] => Some st
      | (category, depth) :: rest =>
          st' ← scan_entry fuel' max_depth category depth rest st;
          scan_loop fuel' max_depth st'
      end
  end.

Definition scan_init (start_category : string) (w : world) : scan_state :=
  ScanState [(start_category, 0)] ∅ ∅ ∅ w.

Definition scan_categories (fuel : nat) (start_category : string) (max_depth : Z)
    (w : world)
    : option (gmap Z (list (string * string)) * gmap Z nat * world) :=
  st ← scan_loop fuel max_depth (scan_init start_category w);
  Some (files_by_depth st, categories_by_depth st, env st).

(** ** Summary Reporter: [print_summary] *)

(** One line of the table: depth, categories, images, cumulative. *)
Record row : Type := Row {
  row_depth : Z;
  row_cats : nat;
  row_files : nat;
  row_cumulative : nat
}.

Record report : Type := Report {
  rows : list row;               (* the lines of the table, top to bottom *)
  total_cats : nat;              (* the TOTAL line *)
  total_files : nat              (* TOTAL line and returned value *)
}.

(** [max(keys, default=0)] *)
Definition max_default (keys : list Z) : Z :=
  match keys with
  | [] => 0
  | k :: ks => foldl Z.max k ks
  end.

Definition print_summary (files_by_depth : gmap Z (list (string * string)))
    (categories_by_depth : gmap Z nat) : report :=
  let max_depth :=
    max_default ((map_to_list files_by_depth).*1 ++ (map_to_list categories_by_depth).*1) in
  let '(total_files, cumulative, lines) :=
    foldl (λ '(total_files, cumulative, lines) depth,
             let num_cats := default O (categories_by_depth !! depth) in
             let num_files := length (default [] (files_by_depth !! depth)) in
             let total_files := (total_files + num_files)%nat in
             let cumulative := (cumulative + num_files)%nat in
             (total_files, cumulative, lines ++ [Row depth num_cats num_files cumulative]))
          (O, O, []) (range (max_depth + 1)) in
  Report lines (sum_list (map_to_list categories_by_depth).*2) total_files.

(** ** Downloader: [download_files] *)

(** The loop [for attempt in range(5)] for one file; [counts] is
    [(downloaded_count, error_count)]. *)
Fixpoint file_attempts (filename safe_filename : string) (attempts : list Z)
    (counts : nat * nat) : St (nat * nat) :=
  match attempts with
  | [] => ret counts
  | attempt :: rest =>
      let on_exception : St (nat * nat) :=
        if attempt =? 4 then
          file_attempts filename safe_filename rest (counts.1, S counts.2)
        else sleep (1000 * 2 ^ attempt) ;;
             file_attempts filename safe_filename rest counts in
      img <- file_get filename ;;
      match img with
      | ConnectionError => on_exception
      | Http status_code content =>
          if status_code =? 429 then
            sleep (1000 * 2 ^ (attempt + 2)) ;;
            file_attempts filename safe_filename rest counts
          else if raises_for_status status_code then on_exception
          else write_file safe_filename content ;;
               ret (S counts.1, counts.2)
      end
  end.

(** The body of [for category, title in files]. *)
Definition download_entry (entry : string * string) (counts : nat * nat)
    : St (nat * nat) :=
  let filename := Str.removeprefix entry.2 "File:" in
  let safe_filename := sanitize_filename filename in
  present <- path_exists safe_filename ;;
  if present then ret counts
  else
    counts' <- file_attempts filename safe_filename (range 5) counts ;;
    sleep 1000 ;;
    ret counts'.

Definition download_files (files_by_depth : gmap Z (list (string * string)))
    (max_download_depth : Z) : St (nat * nat) :=
  for_each (range (max_download_depth + 1))
    (λ depth counts,
       let files := default [] (files_by_depth !! depth) in
       for_each files download_entry counts)
    (O, O).

(** ** The output directory itself *)

(** [os.makedirs(OUTDIR, exist_ok=True)], the first statement of
    [download_files]: whether the directory existed or not, it exists
    afterwards; its creation is taken to succeed, like the writes.  The
    argument and the result say whether [OUTDIR] exists. *)
Definition makedirs (outdir_exists : bool) : bool := true.

(** [download_files] from its first line on: the directory is made, then
    the buckets are gone through.  [download_files] above is what follows
    line 141, where the existence check and the writes take the directory
    to exist. *)
Definition download_files_mkdir (files_by_depth : gmap Z (list (string * string)))
    (max_download_depth : Z) (outdir_exists : bool) (w : world)
    : (nat * nat) * bool * world :=
  let outdir_exists := makedirs outdir_exists in
  let (counts, w') := download_files files_by_depth max_download_depth w in
  (counts, outdir_exists, w').

(** ** Interactive driver: the [__main__] block *)

Definition CATEGORY : string := "Commons featured desktop backgrounds".

Definition MAX_DEPTH : Z := 10.

(** How the process ends: by [exit(code)], or at the end of the script,
    after the line that reports the two counters. *)
Inductive outcome : Type :=
  | Exit (code : Z)
  | Done (downloaded errors : nat).

Section Driver.

(** Two functions of Python are taken as they are: [strip] is [str.strip],
    and [int] is the conversion of the stripped line, [None] standing for
    the [ValueError] it raises.  The line is what [input()] returns.  The
    test [choice.lower() == 'q'] is made on ASCII lower-casing: no other
    character than [q] and [Q] lower-cases to [q]. *)
Variables (strip : string → string) (int : string → option Z).

Definition main (fuel : nat) (line : string) (w : world) : option (outcome * world) :=
  '(files_by_depth, categories_by_depth, w1) ← scan_categories fuel CATEGORY MAX_DEPTH w;
  let total := total_files (print_summary files_by_depth categories_by_depth) in
  if (total =? 0)%nat then Some (Exit 0, w1)
  else
    let choice := strip line in
    if decide (Str.lower choice = "q") then Some (Exit 0, w1)
    else
      match int choice with
      | None => Some (Exit 1, w1)
      | Some download_depth =>
          let '(downloaded, errors, w2) :=
            download_files files_by_depth download_depth w1 in
          Some (Done downloaded errors, w2)
      end.

End Driver.

(** * Vocabulary of the statements *)

(** ** Answers of an endpoint *)

(** The answer is the status 429, too many requests. *)
Definition rate_limited {B} (r : response B) : bool :=
  match r with
  | ConnectionError => false
  | Http status_code _ => status_code =? 429
  end.

(** The answer ends the retry loop with a result: it is neither a 429 nor
    an exception of [requests.get] or of [raise_for_status]. *)
Definition succeeded {B} (r : response B) : bool :=
  match r with
  | ConnectionError => false
  | Http status_code _ => negb (status_code =? 429) && negb (raises_for_status status_code)
  end.

Definition failed {B} (r : response B) : bool := negb (succeeded r).

(** The two backoff schedules after a 429, in milliseconds. *)
Definition metadata_backoff : list Z := [1000; 2000; 4000; 8000; 16000].
Definition download_backoff : list Z := [4000; 8000; 16000; 32000; 64000].

(** ** Pages of an enumeration *)

(** One page as the enumerator obtains it: the answers of the attempts
    that failed, then the answer that carried the page. *)
Record fetched : Type := Fetched {
  retries : list (response page);
  answer_status : Z;
  answer : page
}.

Definition script_of (seg : fetched) : list (response page) :=
  retries seg ++ [Http (answer_status seg) (answer seg)].

(** Fewer failures than the attempt cap, then a success that announces a
    further page. *)
Definition fetched_with_more (max_retries : Z) (seg : fetched) : Prop :=
  Z.of_nat (length (retries seg)) < max_retries
  ∧ forallb failed (retries seg) = true
  ∧ succeeded (Http (answer_status seg) (answer seg)) = true
  ∧ cmcontinue (answer seg) ≠ EmptyString.

(** ** Counting files *)

(** The number of files in the bucket of depth [d]. *)
Definition bucket_size (files : gmap Z (list (string * string))) (d : Z) : nat :=
  length (default [] (files !! d)).

(** The number of files in the buckets of the depths 0 to [D]. *)
Definition files_upto (files : gmap Z (list (string * string))) (D : Z) : nat :=
  sum_list_with (bucket_size files) (seqZ 0 (D + 1)).

(** The number of files in all the buckets. *)
Definition all_files (files : gmap Z (list (string * string))) : nat :=
  map_fold (λ _ bucket n, (length bucket + n)%nat) O files.

(** [M] is the maximum depth present in either map, 0 if both are empty. *)
Definition deepest (files : gmap Z (list (string * string))) (cats : gmap Z nat)
    (M : Z) : Prop :=
  (dom files ∪ dom cats = ∅ ∧ M = 0)
  ∨ (M ∈ dom files ∪ dom cats ∧ ∀ d, d ∈ dom files ∪ dom cats → d ≤ M).

(** ** The output directory *)

(** The name under which [download_files] stores an entry. *)
Definition stored_name (entry : string * string) : string :=
  sanitize_filename (Str.removeprefix entry.2 "File:").

(** What the existence check of [download_files] answers for a name. *)
Definition on_disk (w : world) (name : string) : bool := (path_exists name w).1.

(** Every entry of the depths 0 to [max_download_depth] is on disk. *)
Definition populated (files : gmap Z (list (string * string))) (max_download_depth : Z)
    (w : world) : Prop :=
  ∀ depth entry,
    0 ≤ depth ≤ max_download_depth →
    entry ∈ default [] (files !! depth) →
    on_disk w (stored_name entry) = true.

(** ** Runs of the scanner *)

(** The categories processed so far, with the depth of each, as the
    progress lines of the trace show them. *)
Definition scanned (tr : list event) : list (string * Z) :=
  omap (λ e, match e with Scanning category depth => Some (category, depth) | _ => None end) tr.

(** What an enumeration of the members of type [cmtype] of [category] adds
    to the trace: pauses and requests for these members. *)
Definition is_request (category cmtype : string) (e : event) : Prop :=
  match e with
  | Sleep _ => True
  | ApiGet category' cmtype' _ => category' = category ∧ cmtype' = cmtype
  | _ => False
  end.

(** [w'] continues [w] by pauses and requests for [category]/[cmtype]. *)
Definition extends (category cmtype : string) (w w' : world) : Prop :=
  ∃ evs, trace w' = trace w ++ evs ∧ Forall (is_request category cmtype) evs.

Definition extending (category cmtype : string) {A} (m : St A) : Prop :=
  ∀ w, extends category cmtype w (m w).2.

(** [scan_reach max_depth st st']: the loop [while queue] leads from [st] to
    [st'] in some number of iterations, each popping the head of the queue
    and running the body to its end. *)
Inductive scan_reach (max_depth : Z) : scan_state → scan_state → Prop :=
  | scan_reach_here st : scan_reach max_depth st st
  | scan_reach_step fuel st category depth rest st' st'' :
      queue st = (category, depth) :: rest →
      scan_entry fuel max_depth category depth rest st = Some st' →
      scan_reach max_depth st' st'' →
      scan_reach max_depth st st''.

(** What holds of the bookkeeping in every state of a scan: no category
    appears twice among the processed ones, the visited set is the set of
    the processed categories, each depth counts the categories processed at
    it, and a file sits in the bucket of the depth of its category. *)
Record visited_inv (st : scan_state) : Prop := VisitedInv {
  inv_nodup : NoDup (scanned (trace (env st))).*1;
  inv_processed : ∀ c, c ∈ processed st ↔ c ∈ (scanned (trace (env st))).*1;
  inv_counts : ∀ depth,
    default O (categories_by_depth st !! depth)
    = length (filter (λ e, e.2 = depth) (scanned (trace (env st))));
  inv_files : ∀ depth c t,
    (c, t) ∈ default [] (files_by_depth st !! depth) →
    (c, depth) ∈ scanned (trace (env st))
}.

(** What holds of the frontier in every state of a scan with a bound
    [max_depth]: the depths of its entries lie between 0 and the bound, and
    subcategories were only requested for categories processed above it. *)
Record bounded_inv (max_depth : Z) (st : scan_state) : Prop := BoundedInv {
  inv_queue : Forall (λ e, 0 ≤ e.2 ≤ max_depth) (queue st);
  inv_subcat : ∀ c token,
    ApiGet c "subcat" token ∈ trace (env st) →
    ∃ depth, (c, depth) ∈ scanned (trace (env st)) ∧ depth < max_depth
}.

(** Whatever is on disk in [w] is on disk in [w']. *)
Definition keeps (w w' : world) : Prop :=
  ∀ name, on_disk w name = true → on_disk w' name = true.

(** What a run of downloads over a serving file endpoint maintains: the
    disk only grows, the endpoint still serves, and at most [n] of its
    answers were used. *)
Definition served (n : nat) (w w' : world) : Prop :=
  keeps w w'
  ∧ forallb succeeded (filehost w') = true
  ∧ (length (filehost w) ≤ n + length (filehost w'))%nat.

(** ** Sample worlds *)

Module Sample.

Definition image_page : response page :=
  Http 200 (Page [Member (Some "File:a.jpg"); Member (Some "File:notes.txt")] EmptyString).

(** A metadata endpoint with one page to give, nothing else. *)
Definition one_page : world := World [image_page] [] ∅ [].

(** A file endpoint that answers 429 five times in a row. *)
Definition throttled : world := World [] (replicate 5 (Http 429 "slow down")) ∅ [].

(** A file endpoint that answers 429 twice and then serves the file. *)
Definition throttled_twice : world :=
  World [] [Http 429 "slow down"; Http 429 "slow down"; Http 200 "PNG"] ∅ [].

(** A metadata endpoint that answers 429 twice and then serves a page. *)
Definition api_throttled_twice : world :=
  World [Http 429 (Page [] EmptyString); Http 429 (Page [] EmptyString); image_page] [] ∅ [].

(** A metadata endpoint that serves a first page after one connection
    error, then fails five times in a row before it would serve again. *)
Definition first_page : fetched :=
  Fetched [ConnectionError] 200 (Page [Member (Some "File:a.jpg")] "a.jpg|123").

Definition outage : list (response page) :=
  [Http 429 (Page [] EmptyString); ConnectionError; Http 503 (Page [] EmptyString);
   Http 429 (Page [] EmptyString); Http 404 (Page [] EmptyString)].

Definition flaky : world :=
  World (script_of first_page ++ outage ++ [image_page]) [] ∅ [].

(** The maps of a small scan: one image at depth 0, two at depth 2. *)
Definition found_files : gmap Z (list (string * string)) :=
  {[ 0 := [("A", "File:a.jpg")]; 2 := [("D", "File:d.jpg"); ("D", "File:d?.png")] ]}.

Definition found_cats : gmap Z nat := {[ 0 := 1%nat; 1 := 2%nat; 2 := 1%nat ]}.

(** A file endpoint that serves three files. *)
Definition serving : world :=
  World [] [Http 200 "JPEG a"; Http 200 "JPEG d"; Http 200 "PNG d"] ∅ [].

(** A metadata endpoint for a small tree in which [D] is a subcategory of
    both [B] and [C], themselves subcategories of the root [A]; the answers
    are in the order in which a scan of depth 2 asks for them. *)
Definition titled (titles : list string) : response page :=
  Http 200 (Page ((λ t, Member (Some t)) <$> titles) EmptyString).

Definition diamond : world :=
  World [titled ["Category:B"; "Category:C"]; titled ["File:a.jpg"; "File:readme.txt"];
         titled ["Category:D"]; titled ["File:b.png"];
         titled ["Category:D"]; titled [];
         titled ["File:d.JPEG"]] [] ∅ [].

(** The state in which the scan of depth 2 of that tree ends. *)
Definition diamond_end : scan_state :=
  Eval vm_compute in default (scan_init "A" diamond) (scan_loop 6 2 (scan_init "A" diamond)).

Definition one_file : gmap Z (list (string * string)) :=
  {[ 0 := [("Cat", "File:a.jpg")] ]}.

End Sample.

(** * Vocabulary of further properties *)

(** ** Enumerations that end *)

(** Fewer failures than the attempt cap, then a success that announces no
    further page. *)
Definition fetched_last (max_retries : Z) (seg : fetched) : Prop :=
  Z.of_nat (length (retries seg)) < max_retries
  ∧ forallb failed (retries seg) = true
  ∧ succeeded (Http (answer_status seg) (answer seg)) = true
  ∧ cmcontinue (answer seg) = EmptyString.

(** ** Measures of a trace *)

(** The event is an HTTP request. *)
Definition is_get (e : event) : bool :=
  match e with
  | ApiGet _ _ _ | FileGet _ => true
  | _ => false
  end.

(** The number of HTTP requests among the events. *)
Definition requests (evs : list event) : nat := length (List.filter is_get evs).

(** The time slept during the events, in milliseconds. *)
Definition pause (evs : list event) : Z :=
  foldr (λ e total, match e with Sleep ms => ms + total | _ => total end) 0 evs.


(** ** Further sample worlds *)

Module Demo.

(** A last page, served after one 429, that announces no further page. *)
Definition last_page : fetched :=
  Fetched [Http 429 (Page [] EmptyString)] 200
    (Page [Member (Some "File:b.png")] EmptyString).

(** A metadata endpoint that serves two pages, with some failures. *)
Definition two_pages : world :=
  World (script_of Sample.first_page ++ script_of last_page ++ [Sample.image_page]) [] ∅ [].

(** Two pages served at the first attempt. *)
Definition page_one : fetched :=
  Fetched [] 200 (Page [Member (Some "File:a.jpg")] "a.jpg|123").

Definition page_two : fetched :=
  Fetched [] 200 (Page [Member (Some "File:b.png")] EmptyString).

Definition smooth : world :=
  World (script_of page_one ++ script_of page_two) [] ∅ [].

(** The world in which the enumeration over [Sample.flaky] ends. *)
Definition flaky_end : world :=
  Eval vm_compute in
    (default ([], Sample.flaky) (get_category_members 2 "Cat" "file" 5 Sample.flaky)).2.

(** An output directory that already holds a file, and a file endpoint
    that serves one. *)
Definition stocked : world :=
  World [] [Http 200 "JPEG a"] {[ "x.jpg" := "old" ]} [].

(** The buckets of [Sample.found_files] with one more bucket at depth 3. *)
Definition deeper_files : gmap Z (list (string * string)) :=
  <[ 3 := [("Z", "File:z.jpg")] ]> Sample.found_files.

(** Two titles that are stored under the same name. *)
Definition twin_one : string * string := ("A", "File:a?b.jpg").
Definition twin_two : string * string := ("B", "File:a*b.jpg").

(** A session in which the root has no subcategory and one image, and the
    file endpoint serves it. *)
Definition session : world :=
  World [Sample.titled []; Sample.titled ["File:a.jpg"; "File:notes.txt"]]
        [Http 200 "JPEG a"] ∅ [].

(** The world after the scan of that session. *)
Definition session_scanned : world :=
  World [] [Http 200 "JPEG a"] ∅
    [Scanning CATEGORY 0; Sleep 200; ApiGet CATEGORY "subcat" EmptyString;
     Sleep 200; ApiGet CATEGORY "file" EmptyString].

(** A session in which the root has neither subcategory nor image. *)
Definition barren : world :=
  World [Sample.titled []; Sample.titled ["File:notes.txt"]] [Http 200 "JPEG a"] ∅ [].

(** A reading of the operator's line for the examples: it is taken not to
    need stripping, and the digits 0 to 2 are the integers understood. *)
Definition strip_none (line : string) : string := line.

Definition int_digit (choice : string) : option Z :=
  if decide (choice = "0") then Some 0
  else if decide (choice = "1") then Some 1
  else if decide (choice = "2") then Some 2
  else None.

End Demo.


(** ** Footprints *)

(** What an enumeration may do to the world: use up answers of the metadata
    endpoint, in order and no more of them than it made requests, and log
    pauses and requests for its own category and member type.  The file
    endpoint and the disk are left alone. *)
Definition enumerated (category cmtype : string) (w w' : world) : Prop :=
  filehost w' = filehost w ∧ disk w' = disk w
  ∧ ∃ used evs,
      api w = used ++ api w'
      ∧ trace w' = trace w ++ evs
      ∧ Forall (is_request category cmtype) evs
      ∧ (length used ≤ requests evs)%nat.

Definition enumerating (category cmtype : string) {A} (m : St A) : Prop :=
  ∀ w, enumerated category cmtype w (m w).2.

(** A computation that makes at most [n] requests and sleeps at most [p]
    milliseconds, whatever the world. *)
Definition costing {A} (n : nat) (p : Z) (m : St A) : Prop :=
  ∀ w, ∃ evs,
    trace (m w).2 = trace w ++ evs ∧ (requests evs ≤ n)%nat ∧ pause evs ≤ p.

(** The longest the retry loop of a metadata request can sleep over the
    given attempts: the throttle and the backoff of each. *)
Definition api_pause_bound (attempts : list Z) : Z :=
  foldr (λ attempt total, 200 + 1000 * 2 ^ attempt + total) 0 attempts.

(** The longest the retry loop of a download can sleep over the given
    attempts: the rate-limit backoff of each. *)
Definition file_pause_bound (attempts : list Z) : Z :=
  foldr (λ attempt total, 1000 * 2 ^ (attempt + 2) + total) 0 attempts.


(** ** Runs of the downloader *)

(** The entries [download_files] goes through, in order: those of the
    buckets of the depths 0 to [D]. *)
Definition entries_upto (files : gmap Z (list (string * string))) (D : Z)
    : list (string * string) :=
  flat_map (λ depth, default [] (files !! depth)) (seqZ 0 (D + 1)).

(** What the downloader adds to the trace: pauses and file requests. *)
Definition is_download (e : event) : Prop :=
  match e with
  | Sleep _ | FileGet _ => True
  | _ => False
  end.

(** What going through [entries] does to the counters and to the world:
    the metadata endpoint is left alone; each counter grows, together by at
    most one per entry; a file on disk stays as it is; the disk gains one
    file per counted download, each under the stored name of an entry;
    answers of the file endpoint are used from the front; the trace gains
    pauses and file requests only. *)
Record downloaded (entries : list (string * string)) (c c' : nat * nat)
    (w w' : world) : Prop := Downloaded {
  dl_api : api w' = api w;
  dl_counts : (c.1 ≤ c'.1 ∧ c.2 ≤ c'.2 ∧ c'.1 + c'.2 ≤ c.1 + c.2 + length entries)%nat;
  dl_kept : ∀ name content,
    disk w !! name = Some content → disk w' !! name = Some content;
  dl_size : size (disk w') = (size (disk w) + (c'.1 - c.1))%nat;
  dl_new : ∀ name,
    is_Some (disk w' !! name) →
    is_Some (disk w !! name) ∨ name ∈ stored_name <$> entries;
  dl_used : ∃ used, filehost w = used ++ filehost w';
  dl_trace : ∃ evs, trace w' = trace w ++ evs ∧ Forall is_download evs
}.


(** ** Shape of the maps of a scan *)

(** What holds of the two maps in every state of a scan with the bound
    [max_depth]: the depths of the frontier are not negative; a bucket
    exists only for a depth from 0 to the bound, is not empty and holds
    image titles only; a count exists only for such a depth and is not 0;
    and the counts add up to the number of visited categories. *)
Record shaped_inv (max_depth : Z) (st : scan_state) : Prop := ShapedInv {
  sh_queue : Forall (λ e, 0 ≤ e.2) (queue st);
  sh_files : ∀ d l,
    files_by_depth st !! d = Some l →
    0 ≤ d ≤ max_depth ∧ l ≠ [] ∧ Forall (λ e, EXTENSIONS_search e.2 = true) l;
  sh_cats : ∀ d n,
    categories_by_depth st !! d = Some n → 0 ≤ d ≤ max_depth ∧ (0 < n)%nat;
  sh_total :
    sum_list (map_to_list (categories_by_depth st)).*2 = size (processed st)
}.


(** ** Order of a scan *)

(** What the first-in first-out frontier gives in every state of a scan
    from [start_category]: the depths of the processed categories followed
    by those of the frontier never decrease; two depths of the frontier
    differ by 1 at most; the first processed category, if any, is the root
    at depth 0, and until then the frontier holds nothing but the root. *)
Record bfs_inv (start_category : string) (st : scan_state) : Prop := BfsInv {
  bfs_sorted :
    StronglySorted Z.le ((scanned (trace (env st))).*2 ++ (queue st).*2);
  bfs_band : ∀ x y, x ∈ (queue st).*2 → y ∈ (queue st).*2 → y ≤ x + 1;
  bfs_root : ∀ e, head (scanned (trace (env st))) = Some e → e = (start_category, 0);
  bfs_start :
    scanned (trace (env st)) = [] →
    Forall (λ e, e = (start_category, 0)) (queue st)
}.

(** Events a scan may add to the trace: anything but a file request. *)
Definition is_scan_event (e : event) : Prop :=
  match e with
  | FileGet _ => False
  | _ => True
  end.

(** The members listed by the answers a metadata endpoint has left. *)
Definition members_left (script : list (response page)) : nat :=
  sum_list_with
    (λ r, match r with
          | ConnectionError => O
          | Http _ data => length (categorymembers data)
          end)
    script.

(** A bound on the iterations a scan still has to make: the entries of the
    frontier, and the answers and listed members the endpoint has left. *)
Definition scan_measure (st : scan_state) : nat :=
  (length (queue st) + members_left (api (env st)) + length (api (env st)))%nat.


(** What a scan may do to the world between two of its states: use up
    answers of the metadata endpoint from the front, and log anything but a
    file request; the file endpoint and the disk are left alone. *)
Definition scan_footprint (w w' : world) : Prop :=
  filehost w' = filehost w ∧ disk w' = disk w
  ∧ ∃ used evs,
      api w = used ++ api w'
      ∧ trace w' = trace w ++ evs
      ∧ Forall is_scan_event evs.


(** * Properties *)

(** ** File names *)

Section Naming.

Lemma strip_app (p s : string) : Str.strip p (p +:+ s) = Some s.
Proof.
  induction p as [|a p IH]; simpl; [done|].
  by rewrite Ascii.eqb_refl.
Qed.

Lemma removeprefix_app (p s : string) : Str.removeprefix (p +:+ s) p = s.
Proof. unfold Str.removeprefix. by rewrite strip_app. Qed.

Lemma sanitize_length (name : string) :
  String.length (sanitize_filename name) = String.length name.
Proof.
  unfold sanitize_filename.
  induction name as [|c name IH]; simpl; [done|]. by rewrite IH.
Qed.

Lemma sanitize_get (name : string) (i : nat) :
  String.get i (sanitize_filename name)
  = (λ c, if is_invalid c then underscore else c) <$> String.get i name.
Proof.
  unfold sanitize_filename.
  revert i. induction name as [|c name IH]; intros i; simpl; [done|].
  destruct i as [|i]; simpl; [done|]. apply IH.
Qed.

Lemma sanitize_clean (name : string) :
  Str.forallb (λ c, negb (is_invalid c)) (sanitize_filename name) = true.
Proof.
  unfold sanitize_filename.
  induction name as [|c name IH]; simpl; [done|].
  rewrite IH, andb_true_r.
  by destruct (is_invalid c) eqn:Hc; [|rewrite Hc].
Qed.

End Naming.

(** C8.  The name under which a title is stored: the prefix [File:] is
    stripped, and each of the nine characters less-than, greater-than,
    colon, double quote, slash, backslash, vertical bar, question mark and
    star becomes an underscore, every other character staying where it is,
    so that none of the nine is left.  The nine are written out below: the
    double quote by its code 34, the other eight as the characters of a
    string.  A name made of all nine comes out as underscores; a title
    without any of them keeps its name ([Sunset Over Bay.JPG]); and
    [File:Weird?Name.png] is stored as [Weird_Name.png]. *)
Theorem naming_pipeline :
  (∀ rest : string, Str.removeprefix ("File:" +:+ rest) "File:" = rest)
  ∧ (∀ name : string,
       String.length (sanitize_filename name) = String.length name
       ∧ ∀ i : nat,
           String.get i (sanitize_filename name)
           = (λ c, if bool_decide
                        (c ∈ "034"%char :: list_ascii_of_string "<>:/\|?*")
                   then "_"%char else c)
               <$> String.get i name)
  ∧ (∀ name : string,
       Str.forallb
         (λ c, negb (bool_decide
                       (c ∈ "034"%char :: list_ascii_of_string "<>:/\|?*")))
         (sanitize_filename name) = true)
  ∧ sanitize_filename ("a<b>c:d/e\f|g?h*i" +:+ String "034"%char "j")
    = "a_b_c_d_e_f_g_h_i_j"
  ∧ sanitize_filename ("<>:/\|?*" +:+ String "034"%char EmptyString)
    = "_________"
  ∧ sanitize_filename "Az09 .-_()[]{}!#$%&'+,;=@^`~" = "Az09 .-_()[]{}!#$%&'+,;=@^`~"
  ∧ sanitize_filename (Str.removeprefix "File:Sunset Over Bay.JPG" "File:")
    = "Sunset Over Bay.JPG"
  ∧ sanitize_filename (Str.removeprefix "File:Weird?Name.png" "File:")
    = "Weird_Name.png"
  ∧ (∀ category content : string,
       disk (download_entry (category, "File:Weird?Name.png") (O, O)
               (World [] [Http 200 content] ∅ [])).2
       = {[ "Weird_Name.png" := content ]}).
Proof.
  assert (Hclass : ∀ c : ascii,
            bool_decide (c ∈ "034"%char :: list_ascii_of_string "<>:/\|?*")
            = is_invalid c).
  { intros c. unfold is_invalid. apply bool_decide_ext.
    change ("034"%char :: list_ascii_of_string "<>:/\|?*")
      with [ascii_of_nat 34; ascii_of_nat 60; ascii_of_nat 62; ascii_of_nat 58;
            ascii_of_nat 47; ascii_of_nat 92; ascii_of_nat 124; ascii_of_nat 63;
            ascii_of_nat 42].
    unfold invalid_chars. rewrite !elem_of_cons. tauto. }
  split; [intros rest; apply removeprefix_app|].
  split.
  { intros name. split; [apply sanitize_length|]. intros i. rewrite sanitize_get.
    destruct (String.get i name) as [c|]; [|done].
    cbn [fmap option_fmap option_map]. by rewrite Hclass. }
  split.
  { intros name.
    transitivity (Str.forallb (λ c, negb (is_invalid c)) (sanitize_filename name));
      [|apply sanitize_clean].
    generalize (sanitize_filename name).
    intros s. induction s as [|c s IH]; [done|].
    cbn [Str.forallb]. by rewrite Hclass, IH. }
  repeat split; reflexivity.
Qed.

(** ** The scanner at and beyond the depth bound *)

Lemma collect_files_bucket (category : string) (depth : Z) (files : list member)
    (fbd : gmap Z (list (string * string))) :
  default [] (collect_files category depth files fbd !! depth)
  = default [] (fbd !! depth)
    ++ ((λ t, (category, t)) <$> List.filter EXTENSIONS_search (get_title <$> files)).
Proof.
  unfold collect_files. revert fbd.
  induction files as [|f files IH]; intros fbd; simpl.
  - by rewrite app_nil_r.
  - rewrite IH. destruct (EXTENSIONS_search (get_title f)); [|done].
    rewrite lookup_insert_eq. simpl. by rewrite <- app_assoc.
Qed.

Lemma collect_files_other (category : string) (depth d : Z) (files : list member)
    (fbd : gmap Z (list (string * string))) :
  d ≠ depth → collect_files category depth files fbd !! d = fbd !! d.
Proof.
  intros Hd. unfold collect_files. revert fbd.
  induction files as [|f files IH]; intros fbd; simpl; [done|].
  rewrite IH. destruct (EXTENSIONS_search (get_title f)); [|done].
  by rewrite lookup_insert_ne.
Qed.

Lemma scan_entry_beyond (fuel : nat) (max_depth : Z) (category : string) (depth : Z)
    (rest : list (string * Z)) (st : scan_state) :
  depth > max_depth →
  scan_entry fuel max_depth category depth rest st
  = Some (ScanState rest (processed st) (files_by_depth st) (categories_by_depth st)
            (env st)).
Proof.
  intros Hd. unfold scan_entry.
  replace (depth >? max_depth) with true by (symmetry; apply Z.gtb_gt; lia).
  by rewrite orb_true_r.
Qed.

(** C10.  With a negative [max_depth] the root entry is skipped at once:
    the scan returns two empty maps and leaves the world as it found it (no
    request, no pause, no progress line), for any fuel of at least 2. *)
Theorem scan_negative_depth (fuel : nat) (start_category : string) (max_depth : Z)
    (w : world) :
  max_depth < 0 → (2 ≤ fuel)%nat →
  scan_categories fuel start_category max_depth w = Some (∅, ∅, w).
Proof.
  intros Hneg Hfuel. destruct fuel as [|[|fuel]]; [lia..|].
  unfold scan_categories, scan_init. cbn [scan_loop queue mbind option_bind].
  rewrite scan_entry_beyond by lia. reflexivity.
Qed.

Lemma scan_negative_depth_witness :
  scan_categories 2 "Commons featured desktop backgrounds" (-1) Sample.one_page
  = Some (∅, ∅, Sample.one_page).
Proof. apply scan_negative_depth; lia. Defined.

(** C1, as stated, fails.  The root is popped at depth 0, which is deeper
    than the bound -1; the endpoint would list the image [File:a.jpg] for
    it, yet the entry is skipped: no request is made and the bucket of
    depth 0 stays empty. *)
Lemma deeper_entry_not_collected :
  EXTENSIONS_search "File:a.jpg" = true
  ∧ fst <$> get_category_members 1 "Root" "file" 5 Sample.one_page
    = Some [Member (Some "File:a.jpg"); Member (Some "File:notes.txt")]
  ∧ scan_entry 1 (-1) "Root" 0 [] (scan_init "Root" Sample.one_page)
    = Some (ScanState [] ∅ ∅ ∅ Sample.one_page)
  ∧ scan_categories 2 "Root" (-1) Sample.one_page = Some (∅, ∅, Sample.one_page).
Proof. repeat split; vm_compute; reflexivity. Qed.

(** ** Retry loops *)

Section Retry.

Lemma rate_limited_inv {B} (r : response B) :
  rate_limited r = true → ∃ body, r = Http 429 body.
Proof.
  destruct r as [|s b]; simpl; [done|].
  intros ->%Z.eqb_eq. by exists b.
Qed.

Lemma succeeded_inv {B} (r : response B) :
  succeeded r = true →
  ∃ s body, r = Http s body ∧ (s =? 429) = false ∧ raises_for_status s = false.
Proof.
  destruct r as [|s b]; simpl; [done|].
  intros [H1 H2]%andb_true_iff. exists s, b.
  by rewrite negb_true_iff in H1, H2.
Qed.

(** A run of 429 answers followed by a success, for any list of attempts
    that is longer than the run. *)
Lemma api_attempts_rate_limited (max_retries : Z) (category cmtype token : string)
    (limited : list (response page)) (ok : response page) (data : page)
    (rest : list (response page)) :
  forallb rate_limited limited = true →
  succeeded ok = true → (∃ s, ok = Http s data) →
  ∀ (attempts : list Z) fh d tr,
    (length limited < length attempts)%nat →
    api_attempts max_retries category cmtype token attempts
      (World (limited ++ ok :: rest) fh d tr)
    = (Some data,
       World rest fh d
         (tr ++ flat_map (λ a, [Sleep 200; ApiGet category cmtype token;
                                Sleep (1000 * 2 ^ a)])
                         (take (length limited) attempts)
             ++ [Sleep 200; ApiGet category cmtype token])).
Proof.
  intros Hlim Hok [s ->].
  apply succeeded_inv in Hok as (s' & data' & [= <- <-] & Hs & Hr).
  induction limited as [|r limited IH]; intros attempts fh d tr Hlen;
    (destruct attempts as [|a attempts]; [simpl in Hlen; lia|]).
  - cbn. rewrite Hs, Hr. unfold ret. by rewrite <- ?app_assoc.
  - simpl in Hlim. apply andb_true_iff in Hlim as [Hr1 Hlim].
    apply rate_limited_inv in Hr1 as [b ->].
    cbn. cbn in IH. rewrite IH by (done || (simpl in Hlen; lia)).
    by rewrite <- ?app_assoc.
Qed.

Lemma file_attempts_rate_limited (filename safe_filename : string)
    (limited : list (response string)) (ok : response string) (content : string)
    (rest : list (response string)) (counts : nat * nat) :
  forallb rate_limited limited = true →
  succeeded ok = true → (∃ s, ok = Http s content) →
  ∀ (attempts : list Z) a d tr,
    (length limited < length attempts)%nat →
    file_attempts filename safe_filename attempts counts
      (World a (limited ++ ok :: rest) d tr)
    = ((S counts.1, counts.2),
       World a rest (<[safe_filename := content]> d)
         (tr ++ flat_map (λ i, [FileGet filename; Sleep (1000 * 2 ^ (i + 2))])
                         (take (length limited) attempts)
             ++ [FileGet filename])).
Proof.
  intros Hlim Hok [s ->].
  apply succeeded_inv in Hok as (s' & data' & [= <- <-] & Hs & Hr).
  induction limited as [|r limited IH]; intros attempts a d tr Hlen;
    (destruct attempts as [|i attempts]; [simpl in Hlen; lia|]).
  - cbn. rewrite Hs, Hr. unfold ret. by rewrite <- ?app_assoc.
  - simpl in Hlim. apply andb_true_iff in Hlim as [Hr1 Hlim].
    apply rate_limited_inv in Hr1 as [b ->].
    cbn. cbn in IH. rewrite IH by (done || (simpl in Hlen; lia)).
    by rewrite <- ?app_assoc.
Qed.

End Retry.

(** C4.  Fewer than five 429 answers followed by a success: the retry loop
    of a metadata call returns the page of the success, and the pauses it
    took after the 429 answers are the first entries of 1, 2, 4, 8, 16
    seconds (each attempt being preceded by the fixed 0.2 s); the retry loop
    of a download saves the file, counts it, and its pauses are the first
    entries of 4, 8, 16, 32, 64 seconds. *)
Theorem rate_limit_backoff (category cmtype token filename safe_filename : string)
    (limited : list (response page)) (status : Z) (data : page)
    (rest : list (response page))
    (limited' : list (response string)) (status' : Z) (content : string)
    (rest' : list (response string))
    (counts : nat * nat) (w : world) :
  (length limited < 5)%nat → forallb rate_limited limited = true →
  succeeded (Http status data) = true →
  (length limited' < 5)%nat → forallb rate_limited limited' = true →
  succeeded (Http status' content) = true →
  api_attempts 5 category cmtype token (range 5)
    (World (limited ++ Http status data :: rest) (filehost w) (disk w) (trace w))
  = (Some data,
     World rest (filehost w) (disk w)
       (trace w
        ++ flat_map (λ ms, [Sleep 200; ApiGet category cmtype token; Sleep ms])
                    (take (length limited) metadata_backoff)
        ++ [Sleep 200; ApiGet category cmtype token]))
  ∧ file_attempts filename safe_filename (range 5) counts
      (World (api w) (limited' ++ Http status' content :: rest') (disk w) (trace w))
    = ((S counts.1, counts.2),
       World (api w) rest' (<[safe_filename := content]> (disk w))
         (trace w
          ++ flat_map (λ ms, [FileGet filename; Sleep ms])
                      (take (length limited') download_backoff)
          ++ [FileGet filename])).
Proof.
  intros Hlen Hlim Hok Hlen' Hlim' Hok'. split.
  - rewrite (api_attempts_rate_limited 5 category cmtype token limited _ data rest)
      by (done || by eexists).
    do 5 (destruct limited as [|? limited]; [reflexivity|]).
    simpl in Hlen. lia.
  - rewrite (file_attempts_rate_limited filename safe_filename limited' _ content rest')
      by (done || by eexists).
    do 5 (destruct limited' as [|? limited']; [reflexivity|]).
    simpl in Hlen'. lia.
Qed.

Lemma rate_limit_backoff_witness :
  api_attempts 5 "Cat" "file" EmptyString (range 5) Sample.api_throttled_twice
  = (Some (Page [Member (Some "File:a.jpg"); Member (Some "File:notes.txt")] EmptyString),
     World [] [] ∅
       [Sleep 200; ApiGet "Cat" "file" EmptyString; Sleep 1000;
        Sleep 200; ApiGet "Cat" "file" EmptyString; Sleep 2000;
        Sleep 200; ApiGet "Cat" "file" EmptyString])
  ∧ file_attempts "a.jpg" "a.jpg" (range 5) (O, O) Sample.throttled_twice
    = ((1%nat, O),
       World [] [] {[ "a.jpg" := "PNG" ]}
         [FileGet "a.jpg"; Sleep 4000; FileGet "a.jpg"; Sleep 8000; FileGet "a.jpg"]).
Proof.
  exact (rate_limit_backoff "Cat" "file" EmptyString "a.jpg" "a.jpg"
           [Http 429 (Page [] EmptyString); Http 429 (Page [] EmptyString)] 200
           (Page [Member (Some "File:a.jpg"); Member (Some "File:notes.txt")] EmptyString) []
           [Http 429 "slow down"; Http 429 "slow down"] 200 "PNG" []
           (O, O) (World [] [] ∅ [])
           ltac:(simpl; lia) eq_refl eq_refl ltac:(simpl; lia) eq_refl eq_refl).
Defined.

(** C3, the failing input.  One file, not on disk, and a file endpoint that
    answers 429 to each of the five attempts: the retries are exhausted, the
    file is not saved, and yet [download_files] returns no error at all.
    The same file with five connection errors is counted as one error. *)
Theorem throttled_download_not_counted :
  download_files Sample.one_file 0 Sample.throttled
  = ((O, O),
     World [] [] ∅
       [FileGet "a.jpg"; Sleep 4000; FileGet "a.jpg"; Sleep 8000;
        FileGet "a.jpg"; Sleep 16000; FileGet "a.jpg"; Sleep 32000;
        FileGet "a.jpg"; Sleep 64000; Sleep 1000])
  ∧ download_files Sample.one_file 0 (World [] (replicate 5 ConnectionError) ∅ [])
    = ((O, 1%nat),
       World [] [] ∅
         [FileGet "a.jpg"; Sleep 1000; FileGet "a.jpg"; Sleep 2000;
          FileGet "a.jpg"; Sleep 4000; FileGet "a.jpg"; Sleep 8000;
          FileGet "a.jpg"; Sleep 1000]).
Proof. split; vm_compute; reflexivity. Qed.

(** ** Enumeration *)

Section Enumeration.

Variables (max_retries : Z) (category cmtype : string).

Lemma failed_inv {B} (r : response B) :
  failed r = true →
  r = ConnectionError
  ∨ (∃ b, r = Http 429 b)
  ∨ (∃ s b, r = Http s b ∧ (s =? 429) = false ∧ raises_for_status s = true).
Proof.
  unfold failed. destruct r as [|s b]; simpl; [by left|].
  intros H. right. destruct (s =? 429) eqn:Hs.
  - left. apply Z.eqb_eq in Hs as ->. by exists b.
  - right. exists s, b. simpl in H. by rewrite negb_true_iff, negb_false_iff in H.
Qed.

(** As many failures as attempts left: the loop gives up, having consumed
    exactly these answers. *)
Lemma api_attempts_exhausted (token : string) (fs : list (response page)) :
  forallb failed fs = true →
  ∀ (a : Z) (rest : list (response page)) fh d tr,
    a + Z.of_nat (length fs) = max_retries →
    ∃ tr',
      api_attempts max_retries category cmtype token (seqZ a (Z.of_nat (length fs)))
        (World (fs ++ rest) fh d tr)
      = (None, World rest fh d tr').
Proof.
  induction fs as [|r fs IH]; intros Hfs a rest fh d tr Ha.
  - by exists tr.
  - simpl in Hfs. apply andb_true_iff in Hfs as [Hr Hfs].
    rewrite seqZ_cons by (simpl; lia).
    replace (Z.pred (Z.of_nat (length (r :: fs)))) with (Z.of_nat (length fs))
      by (simpl; lia).
    assert (Hnext : ∀ tr0, ∃ tr',
      api_attempts max_retries category cmtype token (seqZ (Z.succ a) (Z.of_nat (length fs)))
        (World (fs ++ rest) fh d tr0) = (None, World rest fh d tr')).
    { intros tr0. apply IH; [done|]. simpl in Ha. lia. }
    assert (Hexc : ∀ tr0, ∃ tr',
      (if a =? max_retries - 1 then ret None
       else sleep (1000 * 2 ^ a) ;;
            api_attempts max_retries category cmtype token
              (seqZ (Z.succ a) (Z.of_nat (length fs))))
        (World (fs ++ rest) fh d tr0) = (None, World rest fh d tr')).
    { intros tr0. destruct (a =? max_retries - 1) eqn:Hlast.
      - apply Z.eqb_eq in Hlast. destruct fs; [|simpl in Ha; lia].
        by exists tr0.
      - cbn. apply Hnext. }
    apply failed_inv in Hr as [->|[[b ->]|(s & b & -> & Hs & Hraise)]]; cbn.
    + apply Hexc.
    + apply Hnext.
    + rewrite Hs, Hraise. apply Hexc.
Qed.

(** Fewer failures than attempts left, then a success: the loop returns the
    page of the success, having consumed the answers up to it. *)
Lemma api_attempts_fetched (token : string) (fs : list (response page))
    (s : Z) (data : page) :
  forallb failed fs = true → succeeded (Http s data) = true →
  ∀ (a : Z) (n : nat) (rest : list (response page)) fh d tr,
    (length fs < n)%nat → a + Z.of_nat n = max_retries →
    ∃ tr',
      api_attempts max_retries category cmtype token (seqZ a (Z.of_nat n))
        (World (fs ++ Http s data :: rest) fh d tr)
      = (Some data, World rest fh d tr').
Proof.
  intros Hfs Hok. apply succeeded_inv in Hok as (s' & data' & [= <- <-] & Hs & Hraise).
  induction fs as [|r fs IH]; intros a n rest fh d tr Hn Ha;
    (destruct n as [|n]; [simpl in Hn; lia|]);
    rewrite seqZ_cons by lia;
    replace (Z.pred (Z.of_nat (S n))) with (Z.of_nat n) by lia.
  - cbn. rewrite Hs, Hraise. by eexists.
  - simpl in Hfs. apply andb_true_iff in Hfs as [Hr Hfs].
    assert (Hnext : ∀ tr0, ∃ tr',
      api_attempts max_retries category cmtype token (seqZ (Z.succ a) (Z.of_nat n))
        (World (fs ++ Http s data :: rest) fh d tr0) = (Some data, World rest fh d tr')).
    { intros tr0. apply IH; [done|simpl in Hn; lia|lia]. }
    assert (Hexc : ∀ tr0, ∃ tr',
      (if a =? max_retries - 1 then ret None
       else sleep (1000 * 2 ^ a) ;;
            api_attempts max_retries category cmtype token (seqZ (Z.succ a) (Z.of_nat n)))
        (World (fs ++ Http s data :: rest) fh d tr0) = (Some data, World rest fh d tr')).
    { intros tr0. destruct (a =? max_retries - 1) eqn:Hlast.
      - apply Z.eqb_eq in Hlast. simpl in Hn. lia.
      - cbn. apply Hnext. }
    apply failed_inv in Hr as [->|[[b ->]|(s0 & b & -> & Hs0 & Hraise0)]]; cbn.
    + apply Hexc.
    + apply Hnext.
    + rewrite Hs0, Hraise0. apply Hexc.
Qed.

End Enumeration.

Section Pagination.

Variables (category cmtype : string).

(** Pages that each announce a further page, then a request that fails on
    every attempt: the loop returns the members of these pages. *)
Lemma get_members_loop_fails_soft (fs rest : list (response page)) :
  forallb failed fs = true →
  ∀ (segs : list fetched) (fuel : nat) (results : list member) (token : string) fh d tr,
    Forall (fetched_with_more (Z.of_nat (length fs))) segs →
    (length segs < fuel)%nat →
    ∃ tr',
      get_members_loop fuel (Z.of_nat (length fs)) category cmtype results token
        (World (flat_map script_of segs ++ fs ++ rest) fh d tr)
      = Some (results ++ flat_map (λ seg, categorymembers (answer seg)) segs,
              World rest fh d tr').
Proof.
  intros Hfs. induction segs as [|seg segs IH];
    intros fuel results token fh d tr Hsegs Hfuel;
    (destruct fuel as [|fuel]; [simpl in Hfuel; lia|]); cbn [get_members_loop flat_map].
  - destruct (api_attempts_exhausted (Z.of_nat (length fs)) category cmtype token fs Hfs
                0 rest fh d tr) as [tr' Hrun]; [lia|].
    unfold range. cbn [app]. rewrite Hrun. exists tr'. by rewrite app_nil_r.
  - apply Forall_cons in Hsegs as [(Hlen & Hfailed & Hok & Hmore) Hsegs].
    unfold script_of at 1. rewrite <- !app_assoc. cbn [app].
    destruct (api_attempts_fetched (Z.of_nat (length fs)) category cmtype token
                (retries seg) _ _ Hfailed Hok 0 (length fs)
                (flat_map script_of segs ++ fs ++ rest) fh d tr) as [tr' Hrun]; [lia..|].
    unfold range. rewrite Hrun. rewrite decide_False by done.
    destruct (IH fuel (results ++ categorymembers (answer seg)) (cmcontinue (answer seg))
                fh d tr' Hsegs) as [tr'' Hloop]; [simpl in Hfuel; lia|].
    rewrite Hloop. exists tr''. by rewrite <- app_assoc.
Qed.

End Pagination.

Section Termination.

Variables (max_retries : Z) (category cmtype : string).

(** The retry loop never puts answers back, and a page costs at least one. *)
Lemma api_attempts_consumes token attempts :
  ∀ w r w',
    api_attempts max_retries category cmtype token attempts w = (r, w') →
    (length (api w') ≤ length (api w))%nat
    ∧ (is_Some r → (length (api w') < length (api w))%nat).
Proof.
  induction attempts as [|attempt attempts IH]; intros [ap fh d tr] r w'.
  - cbn. intros [= <- <-]. split; [done|]. by intros [? [=]].
  - cbn [api_attempts]. unfold bind, sleep, api_get, emit, bind, ret. simpl.
    destruct ap as [|resp ap]; simpl.
    + destruct (attempt =? max_retries - 1).
      * intros [= <- <-]. split; [done|]. by intros [? [=]].
      * intros Hrun%IH. simpl in Hrun. done.
    + assert (Hnext : ∀ tr0,
        api_attempts max_retries category cmtype token attempts (World ap fh d tr0)
        = (r, w') →
        (length (api w') ≤ S (length ap))%nat
        ∧ (is_Some r → (length (api w') < S (length ap))%nat)).
      { intros tr0 Hrun%IH. simpl in Hrun. split; [lia|]. intros Hr. apply Hrun in Hr. lia. }
      destruct resp as [|s data].
      * destruct (attempt =? max_retries - 1); [|apply Hnext].
        intros [= <- <-]. simpl. split; [lia|]. by intros [? [=]].
      * destruct (s =? 429); [apply Hnext|].
        destruct (raises_for_status s).
        -- destruct (attempt =? max_retries - 1); [|apply Hnext].
           intros [= <- <-]. simpl. split; [lia|]. by intros [? [=]].
        -- intros [= <- <-]. simpl. split; lia.
Qed.

(** With more fuel than answers left, the enumeration returns. *)
Lemma get_members_loop_returns fuel :
  ∀ results token w,
    (length (api w) < fuel)%nat →
    ∃ r w',
      get_members_loop fuel max_retries category cmtype results token w = Some (r, w')
      ∧ (length (api w') ≤ length (api w))%nat.
Proof.
  induction fuel as [|fuel IH]; intros results token w Hfuel; [lia|].
  cbn [get_members_loop].
  destruct (api_attempts _ _ _ _ _ w) as [[data|] w1] eqn:Hrun;
    apply api_attempts_consumes in Hrun as [Hle Hlt].
  - specialize (Hlt ltac:(by eexists)). case_decide.
    + eexists _, _. split; [done|lia].
    + destruct (IH (results ++ categorymembers data) (cmcontinue data) w1)
        as (r & w' & Hloop & Hle'); [lia|].
      exists r, w'. split; [done|lia].
  - eexists _, _. split; [done|lia].
Qed.

End Termination.

Lemma get_category_members_returns (fuel : nat) (category cmtype : string)
    (max_retries : Z) (w : world) :
  (length (api w) < fuel)%nat →
  ∃ r w',
    get_category_members fuel category cmtype max_retries w = Some (r, w')
    ∧ (length (api w') ≤ length (api w))%nat.
Proof. apply get_members_loop_returns. Qed.

(** C2.  The enumerator has fetched some pages, each announcing a further
    one (and each possibly after fewer than five failed attempts), and then
    the five attempts of the next request all fail, by a 429, a connection
    error or an error status: [get_category_members] returns, with the
    members of the pages fetched so far, in order, and nothing else; when no
    page was fetched this is the empty list.  It has consumed the answers up
    to the fifth failure. *)
Theorem enumeration_fails_soft (fuel : nat) (category cmtype : string)
    (segs : list fetched) (fs rest : list (response page)) (w : world) :
  Forall (fetched_with_more 5) segs →
  length fs = 5%nat → forallb failed fs = true →
  (length segs < fuel)%nat →
  api w = flat_map script_of segs ++ fs ++ rest →
  ∃ w',
    get_category_members fuel category cmtype 5 w
    = Some (flat_map (λ seg, categorymembers (answer seg)) segs, w')
    ∧ api w' = rest.
Proof.
  intros Hsegs Hlen Hfs Hfuel Hapi. destruct w as [a fh d tr]. simpl in Hapi. subst a.
  destruct (get_members_loop_fails_soft category cmtype fs rest Hfs segs fuel []
              EmptyString fh d tr) as [tr' Hrun]; [by rewrite Hlen|done|].
  rewrite Hlen in Hrun. change (Z.of_nat 5) with 5 in Hrun.
  unfold get_category_members. rewrite Hrun. by eexists.
Qed.

Lemma enumeration_fails_soft_witness :
  ∃ w',
    get_category_members 2 "Cat" "file" 5 Sample.flaky
    = Some ([Member (Some "File:a.jpg")], w')
    ∧ api w' = [Sample.image_page].
Proof.
  apply (enumeration_fails_soft 2 "Cat" "file" [Sample.first_page] Sample.outage
           [Sample.image_page] Sample.flaky).
  - repeat constructor; simpl; (lia || discriminate).
  - reflexivity.
  - reflexivity.
  - simpl; lia.
  - reflexivity.
Defined.

(** ** Summary *)

Section Summary.

Lemma max_default_spec (keys : list Z) :
  (keys = [] → max_default keys = 0)
  ∧ (keys ≠ [] → max_default keys ∈ keys)
  ∧ ∀ k, k ∈ keys → k ≤ max_default keys.
Proof.
  destruct keys as [|k ks]; [by split_and!; [|done|intros k H; inversion H]|].
  assert (H : ∀ ks k, (foldl Z.max k ks = k ∨ foldl Z.max k ks ∈ ks)
                     ∧ k ≤ foldl Z.max k ks
                     ∧ ∀ x, x ∈ ks → x ≤ foldl Z.max k ks).
  { clear. induction ks as [|y ks IH]; intros k; simpl.
    - split_and!; [by left|lia|intros x Hx; inversion Hx].
    - destruct (IH (Z.max k y)) as (Hin & Hle & Hall). split_and!.
      + destruct Hin as [Heq|Hin]; [|right; by constructor].
        destruct (Z.max_spec k y) as [[_ Hm]|[_ Hm]]; rewrite Hm in Heq |- *.
        * right. rewrite Heq. constructor.
        * by left.
      + lia.
      + intros x [->|Hx]%elem_of_cons; [lia|by apply Hall]. }
  simpl. destruct (H ks k) as (Hin & Hle & Hall). split_and!; [done| |].
  - intros _. destruct Hin as [->|Hin]; by constructor.
  - intros x [->|Hx]%elem_of_cons; [done|by apply Hall].
Qed.

Lemma elem_of_keys {A} (m : gmap Z A) (d : Z) :
  d ∈ (map_to_list m).*1 ↔ d ∈ dom m.
Proof.
  rewrite elem_of_dom, list_elem_of_fmap. split.
  - intros ([k x] & -> & Hkx). apply elem_of_map_to_list in Hkx. by exists x.
  - intros [x Hx]. exists (d, x). split; [done|]. by apply elem_of_map_to_list.
Qed.

Variables (files : gmap Z (list (string * string))) (cats : gmap Z nat).

Local Abbreviation line :=
  (λ d : Z, Row d (default O (cats !! d)) (bucket_size files d) (files_upto files d)).

Lemma files_upto_nat (n : nat) :
  files_upto files (Z.of_nat n)
  = (sum_list_with (bucket_size files) (seqZ 0 (Z.of_nat n)) + bucket_size files (Z.of_nat n))%nat.
Proof.
  unfold files_upto. replace (Z.of_nat n + 1) with (Z.of_nat (S n)) by lia.
  rewrite seqZ_S, sum_list_with_app, Z.add_0_l. simpl. lia.
Qed.

Lemma summary_loop (n : nat) :
  foldl (λ '(total_files, cumulative, lines) depth,
           let num_cats := default O (cats !! depth) in
           let num_files := length (default [] (files !! depth)) in
           let total_files := (total_files + num_files)%nat in
           let cumulative := (cumulative + num_files)%nat in
           (total_files, cumulative, lines ++ [Row depth num_cats num_files cumulative]))
        (O, O, []) (seqZ 0 (Z.of_nat n))
  = (sum_list_with (bucket_size files) (seqZ 0 (Z.of_nat n)),
     sum_list_with (bucket_size files) (seqZ 0 (Z.of_nat n)),
     line <$> seqZ 0 (Z.of_nat n)).
Proof.
  induction n as [|n IH]; [done|].
  rewrite seqZ_S, foldl_app, IH. simpl.
  rewrite fmap_app, sum_list_with_app. simpl.
  rewrite Z.add_0_l, Nat.add_0_r, files_upto_nat. reflexivity.
Qed.

End Summary.

Section Totals.

Implicit Types m : gmap Z (list (string * string)).

Lemma all_files_insert m (i : Z) (x : list (string * string)) :
  m !! i = None → all_files (<[i:=x]> m) = (length x + all_files m)%nat.
Proof.
  intros Hi. unfold all_files. rewrite map_fold_insert_L; [done| |done].
  intros. lia.
Qed.

Lemma all_files_delete m (i : Z) :
  all_files m = (bucket_size m i + all_files (delete i m))%nat.
Proof.
  unfold bucket_size. destruct (m !! i) as [x|] eqn:Hi; simpl.
  - rewrite <- (insert_delete_id m i x) at 1 by done.
    apply all_files_insert, lookup_delete_eq.
  - by rewrite delete_id.
Qed.

Lemma sum_list_with_agree {A} (f g : A → nat) (l : list A) :
  (∀ x, x ∈ l → f x = g x) → sum_list_with f l = sum_list_with g l.
Proof.
  induction l as [|x l IH]; intros H; simpl; [done|].
  rewrite (H x), IH; [done| |constructor].
  intros y Hy. apply H. by constructor.
Qed.

(** When every key lies in [0, n), the buckets of the depths below [n]
    hold all the files. *)
Lemma range_total (n : nat) :
  ∀ m, (∀ d, d ∈ dom m → 0 ≤ d < Z.of_nat n) →
       sum_list_with (bucket_size m) (seqZ 0 (Z.of_nat n)) = all_files m.
Proof.
  induction n as [|n IH]; intros m Hm.
  - assert (m = ∅) as ->.
    { apply map_empty. intros i. apply not_elem_of_dom. intros Hi%Hm. lia. }
    done.
  - rewrite seqZ_S, sum_list_with_app, Z.add_0_l. simpl.
    rewrite (all_files_delete m (Z.of_nat n)), Nat.add_0_r, Nat.add_comm. f_equal.
    rewrite <- IH.
    + apply sum_list_with_agree. intros d [_ Hd]%elem_of_seqZ.
      unfold bucket_size. rewrite lookup_delete_ne by lia. done.
    + intros d Hd. rewrite dom_delete_L in Hd.
      apply elem_of_difference in Hd as [Hd Hne]. apply Hm in Hd.
      rewrite elem_of_singleton in Hne. lia.
Qed.

End Totals.

(** C7.  The table has one line per depth from 0 to the maximum depth [M]
    present in either map (0 when both are empty), in increasing order; the
    line of depth [D] shows the categories counted at [D], the size of the
    bucket of [D] and, as running total, the sum of the bucket sizes of the
    depths 0 to [D]; and, the depths of a bucket map being non-negative, the
    value returned is the number of files of all the buckets. *)
Theorem summary_counts (files : gmap Z (list (string * string))) (cats : gmap Z nat) :
  (∀ d, d ∈ dom files → 0 ≤ d) →
  ∃ M : Z,
    deepest files cats M
    ∧ rows (print_summary files cats)
      = (λ D, Row D (default O (cats !! D)) (bucket_size files D) (files_upto files D))
          <$> seqZ 0 (M + 1)
    ∧ total_files (print_summary files cats) = all_files files.
Proof.
  intros Hnonneg. unfold print_summary.
  set (keys := (map_to_list files).*1 ++ (map_to_list cats).*1).
  assert (Hkeys : ∀ d, d ∈ keys ↔ d ∈ dom files ∪ dom cats).
  { intros d. unfold keys. by rewrite elem_of_app, elem_of_union, !elem_of_keys. }
  destruct (max_default_spec keys) as (Hempty & Hin & Hmax).
  set (M := max_default keys) in *.
  assert (Hdeep : deepest files cats M).
  { destruct keys as [|k keys'] eqn:Hk.
    - left. split; [|by apply Hempty]. apply set_eq. intros d.
      rewrite <- Hkeys. split; [intros ?%elem_of_nil|intros ?%not_elem_of_empty]; done.
    - right. split; [by apply Hkeys, Hin|]. intros d Hd. by apply Hmax, Hkeys. }
  exists M. split; [done|].
  unfold range.
  replace (seqZ 0 (M + 1)) with (seqZ 0 (Z.of_nat (Z.to_nat (M + 1))))
    by (unfold seqZ; by rewrite Nat2Z.id).
  rewrite summary_loop. simpl. split; [done|].
  destruct Hdeep as [[Hdom ->]|[HM Hle]].
  - assert (files = ∅) as ->; [|done].
    apply dom_empty_iff_L, set_eq. intros k. split; [|by intros ?%not_elem_of_empty].
    intros Hk. rewrite <- Hdom. apply elem_of_union. by left.
  - apply range_total. intros d Hd. specialize (Hnonneg d Hd).
    assert (d ≤ M) by (apply Hle, elem_of_union; by left). lia.
Qed.

Lemma summary_counts_witness :
  ∃ M : Z,
    deepest Sample.found_files Sample.found_cats M
    ∧ rows (print_summary Sample.found_files Sample.found_cats)
      = (λ D, Row D (default O (Sample.found_cats !! D))
                (bucket_size Sample.found_files D) (files_upto Sample.found_files D))
          <$> seqZ 0 (M + 1)
    ∧ total_files (print_summary Sample.found_files Sample.found_cats)
      = all_files Sample.found_files.
Proof.
  apply (summary_counts Sample.found_files Sample.found_cats).
  intros d Hd. unfold Sample.found_files in Hd.
  rewrite dom_insert_L, dom_singleton_L in Hd.
  apply elem_of_union in Hd as [Hd|Hd]; apply elem_of_singleton in Hd; lia.
Defined.

(** ** Downloads *)

Section Download.

Lemma download_entry_skip (entry : string * string) (counts : nat * nat) (w : world) :
  on_disk w (stored_name entry) = true → download_entry entry counts w = (counts, w).
Proof.
  unfold on_disk, stored_name, download_entry, bind, path_exists. simpl.
  by intros ->.
Qed.

Lemma for_each_skip (files : list (string * string)) (counts : nat * nat) (w : world) :
  (∀ entry, entry ∈ files → on_disk w (stored_name entry) = true) →
  for_each files download_entry counts w = (counts, w).
Proof.
  induction files as [|entry files IH]; intros Hall; simpl; [done|].
  unfold bind. rewrite download_entry_skip by (apply Hall; constructor).
  apply IH. intros e He. apply Hall. by constructor.
Qed.

Lemma download_files_idle (files_by_depth : gmap Z (list (string * string)))
    (max_download_depth : Z) (w : world) :
  populated files_by_depth max_download_depth w →
  download_files files_by_depth max_download_depth w = ((O, O), w).
Proof.
  intros Hpop. unfold download_files, range.
  assert (H : ∀ depth, depth ∈ seqZ 0 (max_download_depth + 1) →
                       0 ≤ depth ≤ max_download_depth).
  { intros depth Hd%elem_of_seqZ. lia. }
  revert H. generalize (seqZ 0 (max_download_depth + 1)) (O, O).
  intros depths. induction depths as [|depth depths IH]; intros counts Hd; simpl; [done|].
  unfold bind. rewrite for_each_skip.
  - apply IH. intros d' Hd'. apply Hd. by constructor.
  - intros entry He. apply (Hpop depth); [|done]. apply Hd. constructor.
Qed.

End Download.

(** C9.  An entry whose stored name exists on disk is skipped: the counters
    and the world stay as they are (no request, no pause).  Hence, when the
    first run leaves every entry of the depths 0 to [max_download_depth] on
    disk, a second run over the same buckets, whatever the file endpoint
    would answer, returns (0, 0) and does nothing. *)
Theorem rerun_is_idle (files_by_depth : gmap Z (list (string * string)))
    (max_download_depth : Z) (w0 : world) (answers : list (response string)) :
  let w1 := (download_files files_by_depth max_download_depth w0).2 in
  let w2 := World (api w1) answers (disk w1) (trace w1) in
  populated files_by_depth max_download_depth w1 →
  (∀ entry counts w,
     on_disk w (stored_name entry) = true → download_entry entry counts w = (counts, w))
  ∧ download_files files_by_depth max_download_depth w2 = ((O, O), w2).
Proof.
  intros w1 w2 Hpop. split; [apply download_entry_skip|].
  apply download_files_idle. intros depth entry Hd He.
  apply (Hpop depth entry Hd He).
Qed.

Lemma rerun_is_idle_witness :
  download_files Sample.found_files 2 Sample.serving
  = ((3%nat, O),
     World [] []
       {[ "a.jpg" := "JPEG a"; "d.jpg" := "JPEG d"; "d_.png" := "PNG d" ]}
       [FileGet "a.jpg"; Sleep 1000; FileGet "d.jpg"; Sleep 1000;
        FileGet "d?.png"; Sleep 1000])
  ∧ download_files Sample.found_files 2
      (World [] [Http 200 "other"]
         (disk (download_files Sample.found_files 2 Sample.serving).2)
         (trace (download_files Sample.found_files 2 Sample.serving).2))
    = ((O, O),
       World [] [Http 200 "other"]
         (disk (download_files Sample.found_files 2 Sample.serving).2)
         (trace (download_files Sample.found_files 2 Sample.serving).2)).
Proof.
  split; [vm_compute; reflexivity|].
  apply (rerun_is_idle Sample.found_files 2 Sample.serving [Http 200 "other"]).
  intros depth entry Hd He.
  assert (Hcase : depth = 0 ∨ depth = 1 ∨ depth = 2) by lia.
  destruct Hcase as [-> | [-> | ->]]; vm_compute in He.
  - apply list_elem_of_singleton in He as ->. reflexivity.
  - inversion He.
  - apply elem_of_cons in He as [->|He]; [reflexivity|].
    apply list_elem_of_singleton in He as ->. reflexivity.
Defined.

(** ** What an enumeration leaves in the trace *)

Section Traces.

Variables (category cmtype : string).

Local Abbreviation extends := (extends category cmtype).
Local Abbreviation extending := (extending category cmtype).

Lemma extends_refl w : extends w w.
Proof. exists []. by rewrite app_nil_r. Qed.

Lemma extends_trans w1 w2 w3 : extends w1 w2 → extends w2 w3 → extends w1 w3.
Proof.
  intros (evs1 & H1 & F1) (evs2 & H2 & F2). exists (evs1 ++ evs2).
  rewrite H2, H1, app_assoc. split; [done|]. by apply Forall_app.
Qed.

Lemma extending_ret {A} (a : A) : extending (ret a).
Proof. intros w. apply extends_refl. Qed.

Lemma extending_bind {A B} (m : St A) (k : A → St B) :
  extending m → (∀ a, extending (k a)) → extending (bind m k).
Proof.
  intros Hm Hk w. unfold bind. specialize (Hm w). destruct (m w) as [a w1].
  eapply extends_trans; [exact Hm|apply Hk].
Qed.

Lemma extending_sleep ms : extending (sleep ms).
Proof. intros w. exists [Sleep ms]. split; [done|]. by repeat constructor. Qed.

Lemma extending_api_get token : extending (api_get category cmtype token).
Proof.
  intros w. exists [ApiGet category cmtype token]. split.
  - unfold api_get, bind, emit. simpl. by destruct (api w).
  - by repeat constructor.
Qed.

Lemma extending_api_attempts max_retries token attempts :
  extending (api_attempts max_retries category cmtype token attempts).
Proof.
  induction attempts as [|attempt attempts IH]; [apply extending_ret|].
  cbn [api_attempts].
  apply extending_bind; [apply extending_sleep|intros _].
  apply extending_bind; [apply extending_api_get|intros resp].
  assert (Hexc : extending
            (if attempt =? max_retries - 1 then ret None
             else sleep (1000 * 2 ^ attempt) ;;
                  api_attempts max_retries category cmtype token attempts)).
  { destruct (attempt =? max_retries - 1); [apply extending_ret|].
    apply extending_bind; [apply extending_sleep|done]. }
  destruct resp as [|s data]; [done|].
  destruct (s =? 429).
  - apply extending_bind; [apply extending_sleep|done].
  - destruct (raises_for_status s); [done|apply extending_ret].
Qed.

Lemma get_members_loop_extends fuel max_retries results token w r w' :
  get_members_loop fuel max_retries category cmtype results token w = Some (r, w') →
  extends w w'.
Proof.
  revert results token w. induction fuel as [|fuel IH]; intros results token w; [done|].
  cbn [get_members_loop].
  pose proof (extending_api_attempts max_retries token (range max_retries) w) as Hext.
  destruct (api_attempts _ _ _ _ _ w) as [[data|] w1]; simpl in Hext.
  - case_decide.
    + by intros [= <- <-].
    + intros Hloop%IH. by eapply extends_trans.
  - by intros [= <- <-].
Qed.

Lemma get_category_members_extends fuel max_retries w r w' :
  get_category_members fuel category cmtype max_retries w = Some (r, w') →
  extends w w'.
Proof. apply get_members_loop_extends. Qed.

End Traces.

(** ** One iteration of the scanner *)

Section Iteration.

Variables (fuel : nat) (max_depth : Z) (category : string) (depth : Z)
          (rest : list (string * Z)) (st st' : scan_state).

(** The two outcomes of the body: the entry is skipped, or the category is
    processed. *)
Lemma scan_entry_cases :
  scan_entry fuel max_depth category depth rest st = Some st' →
  ((category ∈ processed st ∨ depth > max_depth)
   ∧ st' = ScanState rest (processed st) (files_by_depth st) (categories_by_depth st)
             (env st))
  ∨ ((category ∉ processed st) ∧ depth ≤ max_depth
     ∧ ∃ subcats files evs1 evs2,
         (depth < max_depth ∨ (subcats = [] ∧ evs1 = []))
         ∧ Forall (is_request category "subcat") evs1
         ∧ Forall (is_request category "file") evs2
         ∧ queue st' = enqueue_subcats depth subcats rest
         ∧ processed st' = processed st ∪ {[category]}
         ∧ files_by_depth st' = collect_files category depth files (files_by_depth st)
         ∧ categories_by_depth st'
           = <[depth := S (default O (categories_by_depth st !! depth))]>
               (categories_by_depth st)
         ∧ trace (env st')
           = trace (env st) ++ [Scanning category depth] ++ evs1 ++ evs2).
Proof.
  unfold scan_entry. case_bool_decide as Hproc; simpl.
  { intros [= <-]. left. split; [by left|done]. }
  destruct (depth >? max_depth) eqn:Hgt; simpl.
  { intros [= <-]. left. split; [right; apply Z.gtb_gt in Hgt; lia|done]. }
  assert (Hle : depth ≤ max_depth).
  { rewrite Z.gtb_ltb in Hgt. apply Z.ltb_ge in Hgt. lia. }
  intros Hrun. right. split; [done|]. split; [done|].
  set (w0 := World (api (env st)) (filehost (env st)) (disk (env st))
               (trace (env st) ++ [Scanning category depth])) in *.
  destruct (depth <? max_depth) eqn:Hlt.
  - destruct (get_category_members fuel category "subcat" 5 w0)
      as [[subcats w1]|] eqn:Hsub; [|done]. simpl in Hrun.
    destruct (get_category_members fuel category "file" 5 w1)
      as [[files w2]|] eqn:Hfiles; [|done]. simpl in Hrun.
    injection Hrun as <-.
    apply get_category_members_extends in Hsub as (evs1 & Ht1 & Hev1).
    apply get_category_members_extends in Hfiles as (evs2 & Ht2 & Hev2).
    exists subcats, files, evs1, evs2. simpl.
    split_and!; try done; [left; by apply Z.ltb_lt|].
    rewrite Ht2, Ht1. simpl. by rewrite <- !app_assoc.
  - simpl in Hrun.
    destruct (get_category_members fuel category "file" 5 w0)
      as [[files w2]|] eqn:Hfiles; [|done]. simpl in Hrun.
    injection Hrun as <-.
    apply get_category_members_extends in Hfiles as (evs2 & Ht2 & Hev2).
    exists [], files, [], evs2. simpl.
    split_and!; try done; [by right|].
    rewrite Ht2. simpl. by rewrite <- !app_assoc.
Qed.

End Iteration.

(** ** Invariants of the scanner *)

Section Invariants.

Lemma scanned_app (l k : list event) : scanned (l ++ k) = scanned l ++ scanned k.
Proof. apply omap_app. Qed.

Lemma scanned_requests (category cmtype : string) (evs : list event) :
  Forall (is_request category cmtype) evs → scanned evs = [].
Proof.
  induction 1 as [|e evs He _ IH]; [done|].
  destruct e; try done; exact IH.
Qed.

Lemma requests_elem (category cmtype c t token : string) (evs : list event) :
  Forall (is_request category cmtype) evs → ApiGet c t token ∈ evs →
  c = category ∧ t = cmtype.
Proof.
  intros Hall Hin. rewrite Forall_forall in Hall. exact (Hall _ Hin).
Qed.

Lemma enqueue_subcats_app (depth : Z) (subcats : list member) (q : list (string * Z)) :
  enqueue_subcats depth subcats q
  = q ++ ((λ subcat, (Str.removeprefix (get_title subcat) "Category:", depth + 1))
            <$> subcats).
Proof.
  unfold enqueue_subcats. revert q.
  induction subcats as [|m subcats IH]; intros q; simpl; [by rewrite app_nil_r|].
  by rewrite IH, <- app_assoc.
Qed.

Lemma collect_files_elem (category : string) (depth d : Z) (files : list member)
    (fbd : gmap Z (list (string * string))) (c t : string) :
  (c, t) ∈ default [] (collect_files category depth files fbd !! d) →
  (c, t) ∈ default [] (fbd !! d) ∨ (c = category ∧ d = depth).
Proof.
  destruct (decide (d = depth)) as [->|Hne].
  - rewrite collect_files_bucket, elem_of_app, list_elem_of_fmap.
    intros [H|(t' & [= -> ->] & _)]; [by left|by right].
  - rewrite collect_files_other by done. by left.
Qed.

Lemma scanned_step (tr evs1 evs2 : list event) (category c1 c2 : string) (depth : Z) :
  Forall (is_request category c1) evs1 → Forall (is_request category c2) evs2 →
  scanned (tr ++ [Scanning category depth] ++ evs1 ++ evs2)
  = scanned tr ++ [(category, depth)].
Proof.
  intros H1 H2. rewrite !scanned_app, (scanned_requests _ _ _ H1),
    (scanned_requests _ _ _ H2). done.
Qed.

Variable max_depth : Z.

Lemma visited_inv_step fuel category depth rest st st' :
  scan_entry fuel max_depth category depth rest st = Some st' →
  visited_inv st → visited_inv st'.
Proof.
  intros Hrun [Hnodup Hproc Hcount Hfiles].
  apply scan_entry_cases in Hrun
    as [[_ ->]|(Hnew & _ & subcats & files & evs1 & evs2 & _ & Hev1 & Hev2 & _
                & Hp & Hf & Hc & Ht)]; [by split|].
  pose proof (scanned_step (trace (env st)) evs1 evs2 category _ _ depth Hev1 Hev2) as Hs.
  rewrite <- Ht in Hs. split.
  - rewrite Hs, fmap_app. apply NoDup_app. split_and!; [done| |apply NoDup_singleton].
    intros c Hc1 Hc2%list_elem_of_singleton. simpl in Hc2. subst c.
    by apply Hnew, Hproc.
  - intros c. rewrite Hp, Hs, fmap_app, elem_of_union, elem_of_app, Hproc.
    simpl. by rewrite elem_of_singleton, list_elem_of_singleton.
  - intros d. rewrite Hc, Hs, filter_app, length_app, <- Hcount.
    rewrite filter_cons, filter_nil. simpl.
    destruct (decide (depth = d)) as [->|Hne].
    + rewrite lookup_insert_eq. simpl. lia.
    + rewrite lookup_insert_ne by done. simpl. lia.
  - intros d c t. rewrite Hf, Hs, elem_of_app, list_elem_of_singleton.
    intros [H|[-> ->]]%collect_files_elem; [left; by eapply Hfiles|by right].
Qed.

Lemma bounded_inv_step fuel category depth rest st st' :
  queue st = (category, depth) :: rest →
  scan_entry fuel max_depth category depth rest st = Some st' →
  bounded_inv max_depth st → bounded_inv max_depth st'.
Proof.
  intros Hq Hrun [Hqueue Hsub]. rewrite Hq in Hqueue.
  apply Forall_cons in Hqueue as [Hhead Hrest]. simpl in Hhead.
  apply scan_entry_cases in Hrun
    as [[_ ->]|(_ & _ & subcats & files & evs1 & evs2 & Hlt & Hev1 & Hev2 & Hq'
                & _ & _ & _ & Ht)]; [by split|].
  pose proof (scanned_step (trace (env st)) evs1 evs2 category _ _ depth Hev1 Hev2) as Hs.
  rewrite <- Ht in Hs. split.
  - rewrite Hq', enqueue_subcats_app. apply Forall_app. split; [done|].
    destruct Hlt as [Hlt|[-> _]]; [|constructor].
    apply Forall_fmap, Forall_true. intros m. simpl. lia.
  - intros c token. rewrite Hs, Ht, !elem_of_app, list_elem_of_singleton.
    intros [Hin|[Hin|[Hin|Hin]]].
    + destruct (Hsub c token Hin) as (d & Hd & Hdlt). exists d.
      split; [|done]. rewrite elem_of_app. by left.
    + done.
    + destruct (requests_elem _ _ _ _ _ _ Hev1 Hin) as [-> _].
      destruct Hlt as [Hlt|[_ ->]]; [|inversion Hin].
      exists depth. split; [|done]. rewrite elem_of_app, list_elem_of_singleton. by right.
    + by destruct (requests_elem _ _ _ _ _ _ Hev2 Hin) as [_ ?].
Qed.

Lemma scan_reach_inv (P : scan_state → Prop) st st' :
  (∀ fuel category depth rest s s',
     queue s = (category, depth) :: rest →
     scan_entry fuel max_depth category depth rest s = Some s' → P s → P s') →
  scan_reach max_depth st st' → P st → P st'.
Proof.
  intros Hstep Hreach. induction Hreach as [|fuel s c d rest s' s'' Hq Hrun _ IH]; [done|].
  intros Hs. apply IH. by eapply Hstep.
Qed.

(** A run of [scan_loop] is a run of the step relation, to a state with an
    empty queue. *)
Lemma scan_loop_reach fuel st st' :
  scan_loop fuel max_depth st = Some st' →
  scan_reach max_depth st st' ∧ queue st' = [].
Proof.
  revert st. induction fuel as [|fuel IH]; intros st; [done|]. simpl.
  destruct (queue st) as [|[category depth] rest] eqn:Hq.
  - intros [= <-]. split; [constructor|done].
  - destruct (scan_entry fuel max_depth category depth rest st) as [s1|] eqn:Hrun; [|done].
    simpl. intros [Hreach Hend]%IH. split; [|done].
    by eapply scan_reach_step.
Qed.

End Invariants.

Lemma nodup_fst_agree {A B} (l : list (A * B)) (x : A) (y1 y2 : B) :
  NoDup l.*1 → (x, y1) ∈ l → (x, y2) ∈ l → y1 = y2.
Proof.
  induction l as [|[a b] l IH]; simpl; [by intros _ ?%elem_of_nil|].
  intros [Hnotin Hnd]%NoDup_cons H1 H2.
  apply elem_of_cons in H1 as [H1|H1]; apply elem_of_cons in H2 as [H2|H2].
  - congruence.
  - injection H1 as -> ->. destruct Hnotin.
    by apply (list_elem_of_fmap_2 fst _ (a, y2)).
  - injection H2 as -> ->. destruct Hnotin.
    by apply (list_elem_of_fmap_2 fst _ (a, y1)).
  - by apply IH.
Qed.

(** The two invariants hold from the start of a scan on. *)
Lemma visited_inv_reach (max_depth : Z) (start_category : string) (w : world)
    (st : scan_state) :
  trace w = [] →
  scan_reach max_depth (scan_init start_category w) st → visited_inv st.
Proof.
  intros Hw Hreach.
  apply (scan_reach_inv max_depth visited_inv) in Hreach; [done| |].
  - intros fuel category depth rest s s' _. apply visited_inv_step.
  - split; simpl; rewrite ?Hw; [constructor|set_solver|done|].
    intros depth c t. rewrite lookup_empty. simpl. by intros ?%elem_of_nil.
Qed.

Lemma bounded_inv_reach (max_depth : Z) (start_category : string) (w : world)
    (st : scan_state) :
  trace w = [] → 0 ≤ max_depth →
  scan_reach max_depth (scan_init start_category w) st → bounded_inv max_depth st.
Proof.
  intros Hw Hmax Hreach.
  apply (scan_reach_inv max_depth (bounded_inv max_depth)) in Hreach; [done| |].
  - intros fuel category depth rest s s'. apply bounded_inv_step.
  - split; simpl; [repeat constructor; simpl; lia|].
    rewrite Hw. by intros c token ?%elem_of_nil.
Qed.

Lemma diamond_run : scan_reach 2 (scan_init "A" Sample.diamond) Sample.diamond_end.
Proof. apply (scan_loop_reach 2 6). vm_compute. reflexivity. Qed.

(** C5.  In every state of a scan: no category name occurs twice among the
    categories processed (the progress lines), so a name is processed at
    most once and at one depth only; the visited set holds exactly the
    names processed; a name of the visited set that is popped again is
    skipped, leaving everything but the queue as it is; the count of a depth
    is the number of categories processed at it, and a file is bucketed at
    the depth at which its category was processed. *)
Theorem visited_once (max_depth : Z) (start_category : string)
    (a : list (response page)) (fh : list (response string)) (d : gmap string string)
    (st : scan_state) :
  scan_reach max_depth (scan_init start_category (World a fh d [])) st →
  NoDup (scanned (trace (env st))).*1
  ∧ (∀ c, c ∈ processed st ↔ c ∈ (scanned (trace (env st))).*1)
  ∧ (∀ c d1 d2,
       (c, d1) ∈ scanned (trace (env st)) → (c, d2) ∈ scanned (trace (env st)) →
       d1 = d2)
  ∧ (∀ fuel c depth rest,
       c ∈ processed st →
       scan_entry fuel max_depth c depth rest st
       = Some (ScanState rest (processed st) (files_by_depth st)
                 (categories_by_depth st) (env st)))
  ∧ (∀ depth,
       default O (categories_by_depth st !! depth)
       = length (filter (λ e, e.2 = depth) (scanned (trace (env st)))))
  ∧ (∀ depth c t,
       (c, t) ∈ default [] (files_by_depth st !! depth) →
       (c, depth) ∈ scanned (trace (env st))).
Proof.
  intros Hreach.
  destruct (visited_inv_reach _ _ (World a fh d []) _ eq_refl Hreach) as [Hnodup Hproc Hcount Hfiles].
  split_and!; [done|done| | |done|done].
  - intros c d1 d2. by apply nodup_fst_agree.
  - intros fuel c depth rest Hc. unfold scan_entry.
    by rewrite bool_decide_eq_true_2.
Qed.

Lemma visited_once_witness :
  NoDup (scanned (trace (env Sample.diamond_end))).*1
  ∧ scanned (trace (env Sample.diamond_end)) = [("A", 0); ("B", 1); ("C", 1); ("D", 2)]
  ∧ categories_by_depth Sample.diamond_end = {[ 0 := 1%nat; 1 := 2%nat; 2 := 1%nat ]}.
Proof.
  split; [|split; vm_compute; reflexivity].
  exact (proj1 (visited_once 2 "A" _ [] ∅ Sample.diamond_end diamond_run)).
Defined.

(** C6.  In every state of a scan with [max_depth] at least 0: no entry of
    the frontier has a depth greater than [max_depth + 1] (no entry has a
    depth outside 0 .. [max_depth], in fact), and every request for the
    subcategories of a category was made for a category processed at a
    depth strictly less than [max_depth]. *)
Theorem expansion_bounded (max_depth : Z) (start_category : string)
    (a : list (response page)) (fh : list (response string)) (d : gmap string string)
    (st : scan_state) :
  0 ≤ max_depth →
  scan_reach max_depth (scan_init start_category (World a fh d [])) st →
  Forall (λ e, e.2 ≤ max_depth + 1) (queue st)
  ∧ Forall (λ e, 0 ≤ e.2 ≤ max_depth) (queue st)
  ∧ (∀ c token,
       ApiGet c "subcat" token ∈ trace (env st) →
       (∃ depth, (c, depth) ∈ scanned (trace (env st)))
       ∧ ∀ depth, (c, depth) ∈ scanned (trace (env st)) → depth < max_depth).
Proof.
  intros Hmax Hreach.
  destruct (visited_inv_reach _ _ (World a fh d []) _ eq_refl Hreach) as [Hnodup _ _ _].
  destruct (bounded_inv_reach _ _ (World a fh d []) _ eq_refl Hmax Hreach) as [Hqueue Hsub].
  split_and!; [|done|].
  - eapply Forall_impl; [exact Hqueue|]. simpl. intros e He. lia.
  - intros c token Hin. destruct (Hsub c token Hin) as (depth & Hd & Hlt).
    split; [by exists depth|].
    intros depth' Hd'. by rewrite (nodup_fst_agree _ c depth' depth Hnodup Hd' Hd).
Qed.

Lemma expansion_bounded_witness :
  Forall (λ e : string * Z, e.2 ≤ 2 + 1) (queue Sample.diamond_end)
  ∧ List.filter (λ e, match e with
                        | ApiGet _ cmtype _ => bool_decide (cmtype = "subcat")
                        | _ => false
                        end)
                  (trace (env Sample.diamond_end))
    = [ApiGet "A" "subcat" EmptyString; ApiGet "B" "subcat" EmptyString;
       ApiGet "C" "subcat" EmptyString].
Proof.
  split; [|vm_compute; reflexivity].
  exact (proj1 (expansion_bounded 2 "A" _ [] ∅ Sample.diamond_end ltac:(lia) diamond_run)).
Defined.

(** C1, amended.  An unvisited category popped at depth exactly [max_depth]
    has its files enumerated and the qualifying ones appended to the bucket
    of that depth, while its subcategories are not expanded: the queue is
    the rest of the frontier, and the world is the one the file enumeration
    leaves.  With more fuel than answers left, the body returns that state.
    An entry strictly deeper than [max_depth] is skipped altogether. *)
Theorem files_collected_at_bound (fuel : nat) (max_depth : Z) (category : string)
    (rest : list (string * Z)) (st : scan_state) :
  category ∉ processed st →
  (length (api (env st)) < fuel)%nat →
  (∃ files w' fbd',
     get_category_members fuel category "file" 5
       (emit (Scanning category max_depth) (env st)).2 = Some (files, w')
     ∧ scan_entry fuel max_depth category max_depth rest st
       = Some (ScanState rest (processed st ∪ {[category]}) fbd'
                 (<[max_depth := S (default O (categories_by_depth st !! max_depth))]>
                    (categories_by_depth st)) w')
     ∧ default [] (fbd' !! max_depth)
       = default [] (files_by_depth st !! max_depth)
         ++ ((λ t, (category, t)) <$> List.filter EXTENSIONS_search (get_title <$> files))
     ∧ ∀ d, d ≠ max_depth → fbd' !! d = files_by_depth st !! d)
  ∧ ∀ depth, depth > max_depth →
      scan_entry fuel max_depth category depth rest st
      = Some (ScanState rest (processed st) (files_by_depth st) (categories_by_depth st)
                (env st)).
Proof.
  intros Hnew Hfuel. split; [|intros depth; apply scan_entry_beyond].
  destruct (get_category_members_returns fuel category "file" 5
              (emit (Scanning category max_depth) (env st)).2 Hfuel)
    as (files & w' & Hfiles & _).
  exists files, w', (collect_files category max_depth files (files_by_depth st)).
  split; [done|].
  split; [|split; [apply collect_files_bucket|intros d; apply collect_files_other]].
  unfold scan_entry. rewrite bool_decide_eq_false_2 by done.
  rewrite Z.gtb_ltb, Z.ltb_irrefl. simpl in *. by rewrite Hfiles.
Qed.

Lemma files_collected_at_bound_witness :
  ∃ files w' fbd',
    get_category_members 2 "Root" "file" 5
      (emit (Scanning "Root" 0) Sample.one_page).2 = Some (files, w')
    ∧ scan_entry 2 0 "Root" 0 [] (scan_init "Root" Sample.one_page)
      = Some (ScanState [] (∅ ∪ {["Root"]}) fbd' (<[0 := 1%nat]> ∅) w')
    ∧ default [] (fbd' !! 0)
      = (λ t, ("Root", t)) <$> List.filter EXTENSIONS_search (get_title <$> files).
Proof.
  destruct (files_collected_at_bound 2 0 "Root" [] (scan_init "Root" Sample.one_page))
    as [(files & w' & fbd' & Hfiles & Hrun & Hbucket & _) _].
  - apply not_elem_of_empty.
  - simpl. lia.
  - exists files, w', fbd'. split; [exact Hfiles|]. split; [exact Hrun|exact Hbucket].
Defined.

(** ** A first run that succeeds *)

Section FirstRun.

Lemma served_trans n1 n2 w1 w2 w3 :
  served n1 w1 w2 → served n2 w2 w3 → served (n1 + n2) w1 w3.
Proof.
  intros (K1 & _ & L1) (K2 & S2 & L2). split_and!; [|done|lia].
  intros name H. by apply K2, K1.
Qed.

Lemma download_entry_unfold (entry : string * string) (counts : nat * nat) (w : world) :
  download_entry entry counts w
  = if on_disk w (stored_name entry) then (counts, w)
    else let (counts', w1) :=
           file_attempts (Str.removeprefix entry.2 "File:") (stored_name entry)
             (range 5) counts w in
         (counts', (sleep 1000 w1).2).
Proof.
  unfold download_entry, bind, on_disk, path_exists, stored_name. cbn [fst snd].
  destruct (_ || _); [done|]. by destruct (file_attempts _ _ _ _ _).
Qed.

Lemma download_entry_stores (entry : string * string) (counts : nat * nat) (w : world) :
  forallb succeeded (filehost w) = true →
  (1 ≤ length (filehost w))%nat →
  on_disk (download_entry entry counts w).2 (stored_name entry) = true
  ∧ served 1 w (download_entry entry counts w).2.
Proof.
  intros Hok Hlen. rewrite download_entry_unfold.
  destruct (on_disk w (stored_name entry)) eqn:Hdisk.
  { cbn [snd]. split; [done|]. split_and!; [by intros name|done|lia]. }
  destruct w as [ap [|r fh] d tr]; cbn [filehost length] in *; [lia|].
  cbn [forallb] in Hok. apply andb_true_iff in Hok as [Hr Hfh].
  destruct (succeeded_inv r Hr) as (s & content & -> & _).
  rewrite (file_attempts_rate_limited _ (stored_name entry) [] _ content fh counts
             eq_refl Hr (ex_intro _ s eq_refl) (range 5) ap d tr)
    by (vm_compute; lia).
  unfold sleep, emit, on_disk, path_exists. cbn [fst snd disk api filehost trace].
  split; [by rewrite lookup_insert_eq|].
  split_and!; [|done|cbn; lia].
  intros name. unfold on_disk, path_exists. cbn [fst snd disk].
  intros [H|H]%orb_true_iff; apply orb_true_iff; [left|by right].
  apply bool_decide_eq_true in H. apply bool_decide_eq_true.
  rewrite lookup_insert_is_Some. destruct (decide (stored_name entry = name)); auto.
Qed.

Lemma for_each_stores (files : list (string * string)) :
  ∀ (counts : nat * nat) (w : world),
    forallb succeeded (filehost w) = true →
    (length files ≤ length (filehost w))%nat →
    (∀ entry, entry ∈ files →
              on_disk (for_each files download_entry counts w).2 (stored_name entry) = true)
    ∧ served (length files) w (for_each files download_entry counts w).2.
Proof.
  induction files as [|entry files IH]; intros counts w Hok Hlen; simpl.
  - split; [by intros ? ?%elem_of_nil|]. split_and!; [by intros name|done|lia].
  - simpl in Hlen. unfold bind.
    destruct (download_entry_stores entry counts w Hok ltac:(lia)) as [Hdisk Hserved].
    destruct (download_entry entry counts w) as [counts1 w1]. simpl in *.
    destruct Hserved as (K1 & S1 & L1).
    destruct (IH counts1 w1 S1 ltac:(lia)) as [Hall Hserved'].
    split.
    + intros e [->|He]%elem_of_cons; [|by apply Hall].
      destruct Hserved' as (K2 & _ & _). by apply K2.
    + by apply (served_trans 1 (length files) w w1).
Qed.

Lemma download_depths_store (files_by_depth : gmap Z (list (string * string)))
    (depths : list Z) :
  ∀ (counts : nat * nat) (w : world),
    forallb succeeded (filehost w) = true →
    (sum_list_with (bucket_size files_by_depth) depths ≤ length (filehost w))%nat →
    let w' := (for_each depths
                 (λ depth counts,
                    for_each (default [] (files_by_depth !! depth)) download_entry counts)
                 counts w).2 in
    (∀ depth entry, depth ∈ depths → entry ∈ default [] (files_by_depth !! depth) →
                    on_disk w' (stored_name entry) = true)
    ∧ served (sum_list_with (bucket_size files_by_depth) depths) w w'.
Proof.
  induction depths as [|depth depths IH]; intros counts w Hok Hlen; simpl.
  - split; [by intros ? ? ?%elem_of_nil|]. split_and!; [by intros name|done|lia].
  - simpl in Hlen. unfold bind.
    destruct (for_each_stores (default [] (files_by_depth !! depth)) counts w Hok)
      as [Hhere Hserved]; [unfold bucket_size in Hlen; lia|].
    destruct (for_each (default [] (files_by_depth !! depth)) download_entry counts w)
      as [counts1 w1]. simpl in *.
    destruct Hserved as (K1 & S1 & L1). unfold bucket_size in Hlen at 1.
    destruct (IH counts1 w1 S1 ltac:(lia)) as [Hall Hserved'].
    split.
    + intros d' e [->|Hd']%elem_of_cons He; [|by apply (Hall d')].
      destruct Hserved' as (K2 & _ & _). by apply K2, Hhere.
    + by apply (served_trans _ _ w w1).
Qed.

(** When the file endpoint serves every request and has an answer for each
    entry, the run leaves every entry on disk. *)
Lemma download_files_populates (files_by_depth : gmap Z (list (string * string)))
    (max_download_depth : Z) (w : world) :
  forallb succeeded (filehost w) = true →
  (files_upto files_by_depth max_download_depth ≤ length (filehost w))%nat →
  populated files_by_depth max_download_depth
    (download_files files_by_depth max_download_depth w).2.
Proof.
  intros Hok Hlen depth entry Hd He.
  destruct (download_depths_store files_by_depth (seqZ 0 (max_download_depth + 1))
              (O, O) w Hok Hlen) as [Hall _].
  apply (Hall depth entry); [|done]. apply elem_of_seqZ. lia.
Qed.

(** Hence a second run after such a first run is idle. *)
Lemma rerun_after_success (files_by_depth : gmap Z (list (string * string)))
    (max_download_depth : Z) (w0 : world) (answers : list (response string)) :
  forallb succeeded (filehost w0) = true →
  (files_upto files_by_depth max_download_depth ≤ length (filehost w0))%nat →
  let w1 := (download_files files_by_depth max_download_depth w0).2 in
  (download_files files_by_depth max_download_depth
     (World (api w1) answers (disk w1) (trace w1))).1 = (O, O).
Proof.
  intros Hok Hlen w1. rewrite download_files_idle; [done|].
  intros depth entry Hd He.
  apply (download_files_populates files_by_depth max_download_depth w0 Hok Hlen
           depth entry Hd He).
Qed.

End FirstRun.

(** * Further properties *)

(** ** Enumerations that end *)

Section Completion.

Variables (category cmtype : string) (n : nat).

Lemma get_members_loop_complete (last : fetched) (rest : list (response page)) :
  fetched_last (Z.of_nat n) last →
  ∀ (segs : list fetched) (fuel : nat) (results : list member) (token : string) fh d tr,
    Forall (fetched_with_more (Z.of_nat n)) segs →
    (length segs < fuel)%nat →
    ∃ tr',
      get_members_loop fuel (Z.of_nat n) category cmtype results token
        (World (flat_map script_of segs ++ script_of last ++ rest) fh d tr)
      = Some (results ++ flat_map (λ seg, categorymembers (answer seg)) segs
                      ++ categorymembers (answer last),
              World rest fh d tr').
Proof.
  intros (Hlen & Hfailed & Hok & Hend).
  induction segs as [|seg segs IH];
    intros fuel results token fh d tr Hsegs Hfuel;
    (destruct fuel as [|fuel]; [simpl in Hfuel; lia|]); cbn [get_members_loop flat_map].
  - unfold script_of. rewrite <- !app_assoc. cbn [app].
    destruct (api_attempts_fetched (Z.of_nat n) category cmtype token
                (retries last) _ _ Hfailed Hok 0 n rest fh d tr) as [tr' Hrun]; [lia..|].
    unfold range. rewrite Hrun. rewrite decide_True by done. by exists tr'.
  - apply Forall_cons in Hsegs as [(Hlen' & Hfailed' & Hok' & Hmore) Hsegs].
    unfold script_of at 1. rewrite <- !app_assoc. cbn [app].
    destruct (api_attempts_fetched (Z.of_nat n) category cmtype token
                (retries seg) _ _ Hfailed' Hok' 0 n
                (flat_map script_of segs ++ script_of last ++ rest) fh d tr)
      as [tr' Hrun]; [lia..|].
    unfold range. rewrite Hrun. rewrite decide_False by done.
    destruct (IH fuel (results ++ categorymembers (answer seg)) (cmcontinue (answer seg))
                fh d tr' Hsegs) as [tr'' Hloop]; [simpl in Hfuel; lia|].
    rewrite Hloop. exists tr''. by rewrite <- !app_assoc.
Qed.

End Completion.

(** X1.  The endpoint serves a series of pages, each after fewer than five
    failed attempts, all but the last announcing a further page:
    [get_category_members] returns the members of all the pages, in the
    order of the pages, and has consumed the answers up to the last page. *)
Theorem enumeration_complete (fuel : nat) (category cmtype : string)
    (segs : list fetched) (last : fetched) (rest : list (response page)) (w : world) :
  Forall (fetched_with_more 5) segs →
  fetched_last 5 last →
  (length segs < fuel)%nat →
  api w = flat_map script_of segs ++ script_of last ++ rest →
  ∃ w',
    get_category_members fuel category cmtype 5 w
    = Some (flat_map (λ seg, categorymembers (answer seg)) segs
              ++ categorymembers (answer last), w')
    ∧ api w' = rest.
Proof.
  intros Hsegs Hlast Hfuel Hapi. destruct w as [a fh d tr]. simpl in Hapi. subst a.
  destruct (get_members_loop_complete category cmtype 5 last rest Hlast segs fuel []
              EmptyString fh d tr Hsegs Hfuel) as [tr' Hrun].
  unfold get_category_members. change (Z.of_nat 5) with 5 in Hrun.
  rewrite Hrun. by eexists.
Qed.

Lemma enumeration_complete_witness :
  ∃ w',
    get_category_members 2 "Cat" "file" 5 Demo.two_pages
    = Some ([Member (Some "File:a.jpg"); Member (Some "File:b.png")], w')
    ∧ api w' = [Sample.image_page].
Proof.
  apply (enumeration_complete 2 "Cat" "file" [Sample.first_page] Demo.last_page
           [Sample.image_page] Demo.two_pages).
  - repeat constructor; simpl; (lia || discriminate).
  - repeat split; simpl; lia.
  - simpl; lia.
  - reflexivity.
Defined.

Section TokenChain.

Variables (category cmtype : string) (max_retries : Z).

Lemma api_attempts_first (token : string) (s : Z) (data : page)
    (rest : list (response page)) fh d tr :
  0 < max_retries → succeeded (Http s data) = true →
  api_attempts max_retries category cmtype token (range max_retries)
    (World (Http s data :: rest) fh d tr)
  = (Some data, World rest fh d (tr ++ [Sleep 200; ApiGet category cmtype token])).
Proof.
  intros Hmax Hok.
  apply (api_attempts_rate_limited max_retries category cmtype token [] _ data rest
           eq_refl Hok (ex_intro _ s eq_refl) (range max_retries) fh d tr).
  unfold range. rewrite length_seqZ. simpl. lia.
Qed.

Lemma get_members_loop_chain (last : fetched) :
  0 < max_retries → retries last = [] → fetched_last max_retries last →
  ∀ (segs : list fetched) (fuel : nat) (results : list member) (token : string) fh d tr,
    Forall (λ seg, retries seg = [] ∧ fetched_with_more max_retries seg) segs →
    (length segs < fuel)%nat →
    get_members_loop fuel max_retries category cmtype results token
      (World (flat_map script_of segs ++ script_of last) fh d tr)
    = Some (results ++ flat_map (λ seg, categorymembers (answer seg)) segs
                    ++ categorymembers (answer last),
            World [] fh d
              (tr ++ flat_map (λ token, [Sleep 200; ApiGet category cmtype token])
                              (token :: ((λ seg, cmcontinue (answer seg)) <$> segs)))).
Proof.
  intros Hmax Hnone (_ & _ & Hok & Hend).
  induction segs as [|seg segs IH];
    intros fuel results token fh d tr Hsegs Hfuel;
    (destruct fuel as [|fuel]; [simpl in Hfuel; lia|]);
    cbn [get_members_loop flat_map fmap list_fmap].
  - unfold script_of. rewrite Hnone. cbn [app].
    rewrite api_attempts_first by done. rewrite decide_True by done.
    reflexivity.
  - apply Forall_cons in Hsegs as [[Hnone' (_ & _ & Hok' & Hmore)] Hsegs].
    unfold script_of at 1. rewrite Hnone'. cbn [app].
    rewrite api_attempts_first by done. rewrite decide_False by done.
    rewrite IH by (done || (simpl in Hfuel; lia)).
    by rewrite <- !app_assoc.
Qed.

End TokenChain.

(** X2.  When every page is served at the first attempt, the enumerator
    makes exactly one request per page, each after the fixed pause of 0.2 s:
    the first with an empty continuation token, each further one with the
    token of the page before it. *)
Theorem enumeration_token_chain (fuel : nat) (category cmtype : string)
    (segs : list fetched) (last : fetched) (w : world) :
  Forall (λ seg, retries seg = [] ∧ fetched_with_more 5 seg) segs →
  retries last = [] → fetched_last 5 last →
  (length segs < fuel)%nat →
  api w = flat_map script_of segs ++ script_of last →
  ∃ results,
    get_category_members fuel category cmtype 5 w
    = Some (results,
            World [] (filehost w) (disk w)
              (trace w
               ++ flat_map (λ token, [Sleep 200; ApiGet category cmtype token])
                           (EmptyString :: ((λ seg, cmcontinue (answer seg)) <$> segs)))).
Proof.
  intros Hsegs Hnone Hlast Hfuel Hapi. destruct w as [a fh d tr]. simpl in Hapi. subst a.
  eexists. unfold get_category_members.
  by rewrite (get_members_loop_chain category cmtype 5 last).
Qed.

Lemma enumeration_token_chain_witness :
  ∃ results,
    get_category_members 2 "Cat" "file" 5 Demo.smooth
    = Some (results,
            World [] [] ∅
              [Sleep 200; ApiGet "Cat" "file" EmptyString;
               Sleep 200; ApiGet "Cat" "file" "a.jpg|123"]).
Proof.
  apply (enumeration_token_chain 2 "Cat" "file" [Demo.page_one] Demo.page_two Demo.smooth).
  - repeat constructor; simpl; (lia || discriminate).
  - reflexivity.
  - repeat split; simpl; lia.
  - simpl; lia.
  - reflexivity.
Defined.

(** X3.  With an attempt cap of 0 or less the enumerator makes no request
    at all: the retry loop is empty and the result is the empty list. *)
Theorem enumeration_without_attempts (fuel : nat) (category cmtype : string)
    (max_retries : Z) (w : world) :
  max_retries ≤ 0 → (0 < fuel)%nat →
  get_category_members fuel category cmtype max_retries w = Some ([], w).
Proof.
  intros Hmax Hfuel. destruct fuel as [|fuel]; [lia|].
  unfold get_category_members. cbn [get_members_loop].
  unfold range. by rewrite seqZ_nil.
Qed.

Lemma enumeration_without_attempts_witness :
  get_category_members 1 "Cat" "file" 0 Sample.one_page = Some ([], Sample.one_page).
Proof. apply enumeration_without_attempts; lia. Defined.

(** ** Footprint and cost of an enumeration *)

Section Measures.

Lemma requests_app (l k : list event) : requests (l ++ k) = (requests l + requests k)%nat.
Proof. unfold requests. by rewrite List.filter_app, length_app. Qed.

Lemma pause_app (l k : list event) : pause (l ++ k) = pause l + pause k.
Proof.
  induction l as [|e l IH]; simpl; [done|]. destruct e; rewrite IH; lia.
Qed.

Lemma costing_ret {A} (a : A) : costing 0 0 (ret a).
Proof. intros w. exists []. by rewrite app_nil_r. Qed.

Lemma costing_bind {A B} (m : St A) (k : A → St B) n1 p1 n2 p2 :
  costing n1 p1 m → (∀ a, costing n2 p2 (k a)) → costing (n1 + n2) (p1 + p2) (bind m k).
Proof.
  intros Hm Hk w. unfold bind. destruct (Hm w) as (evs1 & Ht1 & Hn1 & Hp1).
  destruct (m w) as [a w1]. destruct (Hk a w1) as (evs2 & Ht2 & Hn2 & Hp2).
  exists (evs1 ++ evs2). simpl in *.
  rewrite Ht2, Ht1, app_assoc, requests_app, pause_app. split_and!; [done|lia|lia].
Qed.

Lemma costing_weaken {A} (m : St A) n p n' p' :
  (n ≤ n')%nat → p ≤ p' → costing n p m → costing n' p' m.
Proof.
  intros Hn Hp Hm w. destruct (Hm w) as (evs & Ht & Hn1 & Hp1).
  exists evs. split_and!; [done|lia|lia].
Qed.

Lemma costing_sleep ms : costing 0 ms (sleep ms).
Proof. intros w. exists [Sleep ms]. simpl. split_and!; [done|done|lia]. Qed.

Lemma costing_api_get category cmtype token :
  costing 1 0 (api_get category cmtype token).
Proof.
  intros w. exists [ApiGet category cmtype token]. split_and!; [|done|done].
  unfold api_get, bind, emit. simpl. by destruct (api w).
Qed.

Lemma costing_file_get filename : costing 1 0 (file_get filename).
Proof.
  intros w. exists [FileGet filename]. split_and!; [|done|done].
  unfold file_get, bind, emit. simpl. by destruct (filehost w).
Qed.

Lemma costing_write_file name content : costing 0 0 (write_file name content).
Proof. intros w. exists []. by rewrite app_nil_r. Qed.

Lemma api_pause_bound_nonneg attempts : 0 ≤ api_pause_bound attempts.
Proof.
  induction attempts as [|a attempts IH]; simpl; [done|].
  pose proof (Z.pow_nonneg 2 a). lia.
Qed.

Lemma file_pause_bound_nonneg attempts : 0 ≤ file_pause_bound attempts.
Proof.
  induction attempts as [|a attempts IH]; simpl; [done|].
  pose proof (Z.pow_nonneg 2 (a + 2)). lia.
Qed.

Lemma costing_api_attempts max_retries category cmtype token attempts :
  costing (length attempts) (api_pause_bound attempts)
    (api_attempts max_retries category cmtype token attempts).
Proof.
  induction attempts as [|attempt attempts IH]; [apply costing_ret|].
  cbn [api_attempts length api_pause_bound foldr].
  fold (api_pause_bound attempts).
  pose proof (api_pause_bound_nonneg attempts) as Hnonneg.
  pose proof (Z.pow_nonneg 2 attempt ltac:(lia)) as Hpow.
  set (backoff := 1000 * 2 ^ attempt) in *.
  assert (Hnext : costing (length attempts) (backoff + api_pause_bound attempts)
            (sleep backoff ;;
             api_attempts max_retries category cmtype token attempts)).
  { apply (costing_bind _ _ 0 backoff); [apply costing_sleep|done]. }
  assert (Hexc : costing (length attempts) (backoff + api_pause_bound attempts)
            (if attempt =? max_retries - 1 then ret None
             else sleep backoff ;;
                  api_attempts max_retries category cmtype token attempts)).
  { destruct (attempt =? max_retries - 1); [|done].
    eapply costing_weaken; [| |apply costing_ret]; lia. }
  replace (200 + backoff + api_pause_bound attempts)
    with (200 + (0 + (backoff + api_pause_bound attempts))) by lia.
  apply (costing_bind _ _ 0 200 (S (length attempts))); [apply costing_sleep|intros _].
  apply (costing_bind _ _ 1 0 (length attempts)); [apply costing_api_get|intros resp].
  destruct resp as [|s data]; [done|].
  destruct (s =? 429); [done|].
  destruct (raises_for_status s); [done|].
  eapply costing_weaken; [| |apply costing_ret]; lia.
Qed.

End Measures.

Section Footprint.

Variables (category cmtype : string).

Local Abbreviation enumerated := (enumerated category cmtype).
Local Abbreviation enumerating := (enumerating category cmtype).

Lemma enumerated_refl w : enumerated w w.
Proof.
  split_and!; [done..|]. exists [], []. by rewrite app_nil_r.
Qed.

Lemma enumerated_trans w1 w2 w3 : enumerated w1 w2 → enumerated w2 w3 → enumerated w1 w3.
Proof.
  intros (F1 & D1 & used1 & evs1 & A1 & T1 & R1 & L1)
         (F2 & D2 & used2 & evs2 & A2 & T2 & R2 & L2).
  split_and!; [congruence..|]. exists (used1 ++ used2), (evs1 ++ evs2).
  rewrite A1, A2, T2, T1, !app_assoc, length_app, requests_app.
  split_and!; [done|done|by apply Forall_app|lia].
Qed.

Lemma enumerating_ret {A} (a : A) : enumerating (ret a).
Proof. intros w. apply enumerated_refl. Qed.

Lemma enumerating_bind {A B} (m : St A) (k : A → St B) :
  enumerating m → (∀ a, enumerating (k a)) → enumerating (bind m k).
Proof.
  intros Hm Hk w. unfold bind. specialize (Hm w). destruct (m w) as [a w1].
  eapply enumerated_trans; [exact Hm|apply Hk].
Qed.

Lemma enumerating_sleep ms : enumerating (sleep ms).
Proof.
  intros w. split_and!; [done..|]. exists [], [Sleep ms]. simpl.
  split_and!; [done|done|by repeat constructor|done].
Qed.

Lemma enumerating_api_get token : enumerating (api_get category cmtype token).
Proof.
  intros w. unfold api_get, bind, emit. simpl.
  destruct (api w) as [|r rs] eqn:Hapi; simpl.
  - split_and!; [done..|]. exists [], [ApiGet category cmtype token]. simpl.
    rewrite Hapi. split_and!; [done|done|by repeat constructor|unfold requests; simpl; lia].
  - split_and!; [done..|]. exists [r], [ApiGet category cmtype token]. simpl.
    rewrite Hapi. split_and!; [done|done|by repeat constructor|done].
Qed.

Lemma enumerating_api_attempts max_retries token attempts :
  enumerating (api_attempts max_retries category cmtype token attempts).
Proof.
  induction attempts as [|attempt attempts IH]; [apply enumerating_ret|].
  cbn [api_attempts].
  apply enumerating_bind; [apply enumerating_sleep|intros _].
  apply enumerating_bind; [apply enumerating_api_get|intros resp].
  assert (Hexc : enumerating
            (if attempt =? max_retries - 1 then ret None
             else sleep (1000 * 2 ^ attempt) ;;
                  api_attempts max_retries category cmtype token attempts)).
  { destruct (attempt =? max_retries - 1); [apply enumerating_ret|].
    apply enumerating_bind; [apply enumerating_sleep|done]. }
  destruct resp as [|s data]; [done|].
  destruct (s =? 429).
  - apply enumerating_bind; [apply enumerating_sleep|done].
  - destruct (raises_for_status s); [done|apply enumerating_ret].
Qed.

Lemma get_members_loop_enumerated fuel max_retries results token w r w' :
  get_members_loop fuel max_retries category cmtype results token w = Some (r, w') →
  enumerated w w'.
Proof.
  revert results token w. induction fuel as [|fuel IH]; intros results token w; [done|].
  cbn [get_members_loop].
  pose proof (enumerating_api_attempts max_retries token (range max_retries) w) as Hext.
  destruct (api_attempts _ _ _ _ _ w) as [[data|] w1]; simpl in Hext.
  - case_decide.
    + by intros [= <- <-].
    + intros Hloop%IH. by eapply enumerated_trans.
  - by intros [= <- <-].
Qed.

End Footprint.

(** X4.  Whatever an enumeration returns, it has left the file endpoint and
    the disk as they were, has used up answers of the metadata endpoint from
    the front only, no more of them than it made requests, and has added to
    the trace nothing but pauses and requests for its own category and
    member type. *)
Theorem enumeration_footprint (fuel : nat) (category cmtype : string) (max_retries : Z)
    (w w' : world) (results : list member) :
  get_category_members fuel category cmtype max_retries w = Some (results, w') →
  filehost w' = filehost w ∧ disk w' = disk w
  ∧ ∃ used evs,
      api w = used ++ api w'
      ∧ trace w' = trace w ++ evs
      ∧ Forall (is_request category cmtype) evs
      ∧ (length used ≤ requests evs)%nat.
Proof. apply get_members_loop_enumerated. Qed.

(** X5.  One page request of the enumerator makes at most five HTTP
    requests and sleeps at most 32 seconds in all, throttle and backoff
    together, whatever the endpoint answers. *)
Theorem page_request_bounded (category cmtype token : string) (w : world) :
  ∃ evs,
    trace (api_attempts 5 category cmtype token (range 5) w).2 = trace w ++ evs
    ∧ (requests evs ≤ 5)%nat
    ∧ pause evs ≤ 32000.
Proof. apply (costing_api_attempts 5 category cmtype token (range 5) w). Qed.

(** ** What a run of the downloader does *)

Section Downloaded.

Lemma downloaded_refl c w : downloaded [] c c w w.
Proof.
  split; [done|simpl; lia|done|lia|by left|by exists []|].
  exists []. by rewrite app_nil_r.
Qed.

Lemma downloaded_trans l1 l2 c c1 c2 w w1 w2 :
  downloaded l1 c c1 w w1 → downloaded l2 c1 c2 w1 w2 →
  downloaded (l1 ++ l2) c c2 w w2.
Proof.
  intros [A1 C1 K1 S1 N1 [u1 U1] (e1 & T1 & F1)] [A2 C2 K2 S2 N2 [u2 U2] (e2 & T2 & F2)].
  split.
  - congruence.
  - rewrite length_app. lia.
  - intros name content H. by apply K2, K1.
  - rewrite S2, S1. lia.
  - intros name [H|H]%N2.
    + apply N1 in H as [H|H]; [by left|right]. rewrite fmap_app, elem_of_app. by left.
    + right. rewrite fmap_app, elem_of_app. by right.
  - exists (u1 ++ u2). by rewrite U1, U2, app_assoc.
  - exists (e1 ++ e2). rewrite T2, T1, app_assoc. split; [done|]. by apply Forall_app.
Qed.

(** The retry loop of one file, from attempt [a] on: either the file is
    saved and counted, or the disk is as before and at most one error is
    counted. *)
Lemma file_attempts_outcome (filename safe_filename : string) (n : nat) :
  ∀ (a : Z) (c : nat * nat) (w : world),
    a + Z.of_nat n = 5 →
    disk w !! safe_filename = None →
    ∀ c' w', file_attempts filename safe_filename (seqZ a (Z.of_nat n)) c w = (c', w') →
    api w' = api w
    ∧ (∃ used, filehost w = used ++ filehost w')
    ∧ (∃ evs, trace w' = trace w ++ evs ∧ Forall is_download evs)
    ∧ ((∃ content, c' = (S c.1, c.2) ∧ disk w' = <[safe_filename := content]> (disk w))
       ∨ (disk w' = disk w ∧ c'.1 = c.1 ∧ (c'.2 = c.2 ∨ c'.2 = S c.2))).
Proof.
  induction n as [|n IH]; intros a c [ap fh d tr] Ha Hfree c' w'.
  { cbn. intros [= <- <-]. split_and!; [done|by exists []| |right; auto].
    exists []. by rewrite app_nil_r. }
  rewrite seqZ_cons by lia.
  replace (Z.pred (Z.of_nat (S n))) with (Z.of_nat n) by lia.
  cbn [file_attempts]. unfold bind, file_get, emit, sleep, emit, bind. cbn.
  assert (Hnext : ∀ fh' tr' evs0 used0,
    fh = used0 ++ fh' → tr' = tr ++ evs0 → Forall is_download evs0 →
    file_attempts filename safe_filename (seqZ (Z.succ a) (Z.of_nat n)) c
      (World ap fh' d tr') = (c', w') →
    api w' = ap
    ∧ (∃ used, fh = used ++ filehost w')
    ∧ (∃ evs, trace w' = tr ++ evs ∧ Forall is_download evs)
    ∧ ((∃ content, c' = (S c.1, c.2) ∧ disk w' = <[safe_filename := content]> d)
       ∨ (disk w' = d ∧ c'.1 = c.1 ∧ (c'.2 = c.2 ∨ c'.2 = S c.2)))).
  { intros fh' tr' evs0 used0 -> -> Hev0 Hrun.
    apply IH in Hrun as (Hap & [used Hused] & (evs & Hevs & Hfor) & Hout); [|lia|done].
    simpl in *. split_and!; [done| | |done].
    - exists (used0 ++ used). by rewrite Hused, app_assoc.
    - exists (evs0 ++ evs). rewrite Hevs, app_assoc. split; [done|]. by apply Forall_app. }
  assert (Hexc : ∀ fh' used0,
    fh = used0 ++ fh' →
    (if a =? 4 then
       file_attempts filename safe_filename (seqZ (Z.succ a) (Z.of_nat n)) (c.1, S c.2)
     else λ w0, file_attempts filename safe_filename (seqZ (Z.succ a) (Z.of_nat n)) c
                  (World (api w0) (filehost w0) (disk w0)
                     (trace w0 ++ [Sleep (1000 * 2 ^ a)])))
      (World ap fh' d (tr ++ [FileGet filename])) = (c', w') →
    api w' = ap
    ∧ (∃ used, fh = used ++ filehost w')
    ∧ (∃ evs, trace w' = tr ++ evs ∧ Forall is_download evs)
    ∧ ((∃ content, c' = (S c.1, c.2) ∧ disk w' = <[safe_filename := content]> d)
       ∨ (disk w' = d ∧ c'.1 = c.1 ∧ (c'.2 = c.2 ∨ c'.2 = S c.2)))).
  { intros fh' used0 Hfh. destruct (a =? 4) eqn:Hlast.
    - apply Z.eqb_eq in Hlast. destruct n as [|n]; [|lia]. cbn.
      intros [= <- <-]. simpl. split_and!; [done|by exists used0| |right; auto].
      exists [FileGet filename]. split; [done|]. by repeat constructor.
    - cbn. apply (Hnext fh' _ [FileGet filename; Sleep (1000 * 2 ^ a)] used0 Hfh).
      + by rewrite <- app_assoc.
      + by repeat constructor. }
  destruct fh as [|resp fh'].
  - apply (Hexc [] []). done.
  - destruct resp as [|s content].
    + apply (Hexc fh' [ConnectionError]). done.
    + destruct (s =? 429).
      * cbn. apply (Hnext fh' _ [FileGet filename; Sleep (1000 * 2 ^ (a + 2))]
                      [Http s content]); [done| |by repeat constructor].
        by rewrite <- app_assoc.
      * destruct (raises_for_status s).
        -- apply (Hexc fh' [Http s content]). done.
        -- cbn. intros [= <- <-]. simpl. split_and!; [done|by exists [Http s content]| |].
           ++ exists [FileGet filename]. split; [done|]. by repeat constructor.
           ++ left. by exists content.
Qed.

Lemma download_entry_downloaded (entry : string * string) (c c' : nat * nat)
    (w w' : world) :
  download_entry entry c w = (c', w') → downloaded [entry] c c' w w'.
Proof.
  rewrite download_entry_unfold.
  destruct (on_disk w (stored_name entry)) eqn:Hdisk.
  { intros [= <- <-]. split; [done|simpl; lia|done|lia|by left|by exists []|].
    exists []. by rewrite app_nil_r. }
  assert (Hfree : disk w !! stored_name entry = None).
  { unfold on_disk, path_exists in Hdisk. simpl in Hdisk.
    apply orb_false_iff in Hdisk as [Hd _]. apply bool_decide_eq_false in Hd.
    by apply eq_None_not_Some. }
  destruct (file_attempts _ _ _ _ _) as [c1 w1] eqn:Hrun.
  intros [= <- <-].
  apply (file_attempts_outcome _ _ 5 0 c w eq_refl Hfree) in Hrun
    as (Hap & Hused & (evs & Hevs & Hfor) & Hout).
  unfold sleep, emit. cbn [snd api filehost disk trace].
  split; cbn [api filehost disk trace].
  - done.
  - simpl. destruct Hout as [(content & -> & _)|(_ & H1 & [H2|H2])]; simpl; lia.
  - intros name content Hname.
    destruct Hout as [(content' & _ & ->)|(-> & _)]; [|done].
    rewrite lookup_insert_ne; [done|]. intros <-. congruence.
  - destruct Hout as [(content & -> & ->)|(-> & -> & _)]; simpl.
    + rewrite map_size_insert_None by done. lia.
    + lia.
  - intros name Hname.
    destruct Hout as [(content & _ & Hd)|(Hd & _)]; rewrite Hd in Hname; [|by left].
    apply lookup_insert_is_Some in Hname as [<-|[_ Hname]]; [right|by left].
    simpl. by apply list_elem_of_singleton.
  - done.
  - exists (evs ++ [Sleep 1000]). rewrite Hevs, app_assoc. split; [done|].
    apply Forall_app. split; [done|]. by repeat constructor.
Qed.

Lemma for_each_downloaded (entries : list (string * string)) :
  ∀ c w c' w',
    for_each entries download_entry c w = (c', w') → downloaded entries c c' w w'.
Proof.
  induction entries as [|entry entries IH]; intros c w c' w'; simpl.
  - intros [= <- <-]. apply downloaded_refl.
  - unfold bind. destruct (download_entry entry c w) as [c1 w1] eqn:H1.
    intros H2%IH. apply download_entry_downloaded in H1.
    apply (downloaded_trans [entry] entries c c1 c' w w1 w' H1 H2).
Qed.

Lemma download_depths_downloaded (files : gmap Z (list (string * string)))
    (depths : list Z) :
  ∀ c w c' w',
    for_each depths
      (λ depth counts, for_each (default [] (files !! depth)) download_entry counts)
      c w = (c', w') →
    downloaded (flat_map (λ depth, default [] (files !! depth)) depths) c c' w w'.
Proof.
  induction depths as [|depth depths IH]; intros c w c' w'; simpl.
  - intros [= <- <-]. apply downloaded_refl.
  - unfold bind.
    destruct (for_each (default [] (files !! depth)) download_entry c w)
      as [c1 w1] eqn:H1.
    intros H2%IH. apply for_each_downloaded in H1.
    by eapply downloaded_trans.
Qed.

Lemma download_files_downloaded (files : gmap Z (list (string * string)))
    (max_download_depth : Z) (w : world) :
  downloaded (entries_upto files max_download_depth) (O, O)
    (download_files files max_download_depth w).1 w
    (download_files files max_download_depth w).2.
Proof.
  apply download_depths_downloaded. unfold download_files, range.
  by destruct (for_each _ _ _ w).
Qed.

Lemma entries_upto_length (files : gmap Z (list (string * string))) (D : Z) :
  length (entries_upto files D) = files_upto files D.
Proof.
  unfold entries_upto, files_upto. generalize (seqZ 0 (D + 1)).
  intros l. induction l as [|d l IH]; simpl; [done|].
  by rewrite length_app, IH.
Qed.

Lemma elem_of_entries_upto (files : gmap Z (list (string * string))) (D : Z)
    (entry : string * string) :
  entry ∈ entries_upto files D
  ↔ ∃ depth, 0 ≤ depth ≤ D ∧ entry ∈ default [] (files !! depth).
Proof.
  unfold entries_upto. rewrite list_elem_of_In, in_flat_map. split.
  - intros (depth & Hd%list_elem_of_In%elem_of_seqZ & He%list_elem_of_In).
    exists depth. split; [lia|done].
  - intros (depth & Hd & He). exists depth. split; apply list_elem_of_In; [|done].
    apply elem_of_seqZ. lia.
Qed.

End Downloaded.

Section DownloadCost.

Lemma pow2_le_shift (a : Z) : 2 ^ a ≤ 2 ^ (a + 2).
Proof.
  destruct (decide (0 ≤ a)) as [Ha|Ha].
  - apply Z.pow_le_mono_r; lia.
  - rewrite (Z.pow_neg_r 2 a) by lia. apply Z.pow_nonneg. lia.
Qed.

Lemma costing_file_attempts filename safe_filename attempts :
  ∀ c, costing (length attempts) (file_pause_bound attempts)
         (file_attempts filename safe_filename attempts c).
Proof.
  induction attempts as [|attempt attempts IH]; intros c; [apply costing_ret|].
  cbn [file_attempts length file_pause_bound foldr].
  fold (file_pause_bound attempts).
  pose proof (file_pause_bound_nonneg attempts) as Hnonneg.
  pose proof (Z.pow_nonneg 2 attempt ltac:(lia)) as Hpow.
  pose proof (pow2_le_shift attempt) as Hshift.
  set (bound := 1000 * 2 ^ (attempt + 2) + file_pause_bound attempts).
  assert (Hexc : costing (length attempts) bound
            (if attempt =? 4 then
               file_attempts filename safe_filename attempts (c.1, S c.2)
             else sleep (1000 * 2 ^ attempt) ;;
                  file_attempts filename safe_filename attempts c)).
  { destruct (attempt =? 4).
    - eapply costing_weaken; [| |apply IH]; unfold bound; lia.
    - eapply costing_weaken;
        [| |apply (costing_bind _ _ 0 (1000 * 2 ^ attempt));
            [apply costing_sleep|intros _; apply IH]]; unfold bound; lia. }
  replace bound with (0 + bound) by lia.
  apply (costing_bind _ _ 1 0 (length attempts)); [apply costing_file_get|intros img].
  destruct img as [|s content]; [done|].
  destruct (s =? 429).
  - apply (costing_bind _ _ 0 (1000 * 2 ^ (attempt + 2))); [apply costing_sleep|].
    intros _. apply IH.
  - destruct (raises_for_status s); [done|].
    eapply costing_weaken;
      [| |apply (costing_bind _ _ 0 0 0 0);
          [apply costing_write_file|intros _; apply costing_ret]]; unfold bound; lia.
Qed.

Lemma costing_download_entry entry c : costing 5 125000 (download_entry entry c).
Proof.
  unfold download_entry.
  apply (costing_bind _ _ 0 0 5 125000).
  { intros w. exists []. unfold path_exists. simpl. by rewrite app_nil_r. }
  intros present. destruct present.
  { eapply costing_weaken; [| |apply costing_ret]; lia. }
  apply (costing_bind _ _ 5 124000 0 1000);
    [apply (costing_file_attempts _ _ (range 5))|intros c'].
  apply (costing_bind _ _ 0 1000 0 0); [apply costing_sleep|intros _; apply costing_ret].
Qed.

Lemma costing_for_each_entries (entries : list (string * string)) :
  ∀ c, costing (5 * length entries) (125000 * Z.of_nat (length entries))
         (for_each entries download_entry c).
Proof.
  induction entries as [|entry entries IH]; intros c; [apply costing_ret|].
  cbn [for_each length].
  eapply costing_weaken;
    [| |apply (costing_bind _ _ 5 125000);
        [apply costing_download_entry|intros c1; apply IH]]; lia.
Qed.

Lemma costing_download_depths (files : gmap Z (list (string * string)))
    (depths : list Z) :
  ∀ c, costing (5 * sum_list_with (bucket_size files) depths)
         (125000 * Z.of_nat (sum_list_with (bucket_size files) depths))
         (for_each depths
            (λ depth counts,
               for_each (default [] (files !! depth)) download_entry counts) c).
Proof.
  induction depths as [|depth depths IH]; intros c; [apply costing_ret|].
  cbn [for_each sum_list_with].
  eapply costing_weaken;
    [| |apply (costing_bind _ _ _ _
                 (5 * sum_list_with (bucket_size files) depths)
                 (125000 * Z.of_nat (sum_list_with (bucket_size files) depths))
                 (costing_for_each_entries _ c));
        intros c1; apply IH]; unfold bucket_size; lia.
Qed.

End DownloadCost.

(** X6.  The two counters [download_files] returns never add up to more
    than the number of entries in the buckets of the depths 0 to
    [max_download_depth]: an entry is counted at most once, as a download or
    as an error. *)
Theorem download_counts_bounded (files_by_depth : gmap Z (list (string * string)))
    (max_download_depth : Z) (w : world) :
  ((download_files files_by_depth max_download_depth w).1.1
   + (download_files files_by_depth max_download_depth w).1.2
   ≤ files_upto files_by_depth max_download_depth)%nat.
Proof.
  destruct (download_files_downloaded files_by_depth max_download_depth w)
    as [_ Hcounts _ _ _ _ _].
  rewrite entries_upto_length in Hcounts. simpl in Hcounts. lia.
Qed.

(** X7.  A file that is in the output directory before a run of
    [download_files] is there with the same content after it: nothing is
    overwritten or removed. *)
Theorem download_keeps_files (files_by_depth : gmap Z (list (string * string)))
    (max_download_depth : Z) (w : world) (name content : string) :
  disk w !! name = Some content →
  disk (download_files files_by_depth max_download_depth w).2 !! name = Some content.
Proof.
  destruct (download_files_downloaded files_by_depth max_download_depth w)
    as [_ _ Hkept _ _ _ _].
  apply Hkept.
Qed.

(** X8.  The output directory gains exactly one file per counted download. *)
Theorem download_counts_new_files (files_by_depth : gmap Z (list (string * string)))
    (max_download_depth : Z) (w : world) :
  size (disk (download_files files_by_depth max_download_depth w).2)
  = (size (disk w) + (download_files files_by_depth max_download_depth w).1.1)%nat.
Proof.
  destruct (download_files_downloaded files_by_depth max_download_depth w)
    as [_ _ _ Hsize _ _ _].
  rewrite Hsize. simpl. lia.
Qed.

(** X9.  A file that a run of [download_files] adds to the output directory
    is named after an entry of a bucket of a depth from 0 to
    [max_download_depth]: its name is the stored name of that entry, and
    holds none of the nine invalid characters. *)
Theorem download_names_stored (files_by_depth : gmap Z (list (string * string)))
    (max_download_depth : Z) (w : world) (name : string) :
  disk w !! name = None →
  is_Some (disk (download_files files_by_depth max_download_depth w).2 !! name) →
  (∃ depth entry,
     0 ≤ depth ≤ max_download_depth
     ∧ entry ∈ default [] (files_by_depth !! depth)
     ∧ name = stored_name entry)
  ∧ Str.forallb (λ c, negb (is_invalid c)) name = true.
Proof.
  intros Hfree Hnew.
  destruct (download_files_downloaded files_by_depth max_download_depth w)
    as [_ _ _ _ Hnames _ _].
  apply Hnames in Hnew as [[? Hold]|Hnew]; [congruence|].
  apply list_elem_of_fmap in Hnew as (entry & -> & Hentry).
  apply elem_of_entries_upto in Hentry as (depth & Hd & He).
  split; [by exists depth, entry|]. apply sanitize_clean.
Qed.

(** X10.  A run of [download_files] leaves the metadata endpoint alone,
    uses answers of the file endpoint from the front only, and adds to the
    trace nothing but pauses and file requests: at most five requests and
    125 seconds of pause for each entry of the depths it covers. *)
Theorem download_footprint (files_by_depth : gmap Z (list (string * string)))
    (max_download_depth : Z) (w : world) :
  api (download_files files_by_depth max_download_depth w).2 = api w
  ∧ (∃ used,
       filehost w = used ++ filehost (download_files files_by_depth max_download_depth w).2)
  ∧ ∃ evs,
      trace (download_files files_by_depth max_download_depth w).2 = trace w ++ evs
      ∧ Forall is_download evs
      ∧ (requests evs ≤ 5 * files_upto files_by_depth max_download_depth)%nat
      ∧ pause evs ≤ 125000 * Z.of_nat (files_upto files_by_depth max_download_depth).
Proof.
  destruct (download_files_downloaded files_by_depth max_download_depth w)
    as [Hapi _ _ _ _ Hused (evs & Hevs & Hfor)].
  split; [done|]. split; [done|].
  destruct (costing_download_depths files_by_depth (seqZ 0 (max_download_depth + 1))
              (O, O) w) as (evs' & Hevs' & Hreq & Hpause).
  exists evs. split; [done|]. split; [done|].
  assert (evs' = evs) as ->; [|done].
  unfold download_files, range in Hevs.
  rewrite Hevs' in Hevs. by apply app_inv_head in Hevs.
Qed.

Lemma enumeration_footprint_witness :
  filehost Demo.flaky_end = filehost Sample.flaky
  ∧ disk Demo.flaky_end = disk Sample.flaky
  ∧ ∃ used evs,
      api Sample.flaky = used ++ api Demo.flaky_end
      ∧ trace Demo.flaky_end = trace Sample.flaky ++ evs
      ∧ Forall (is_request "Cat" "file") evs
      ∧ (length used ≤ requests evs)%nat.
Proof.
  apply (enumeration_footprint 2 "Cat" "file" 5 Sample.flaky Demo.flaky_end
           [Member (Some "File:a.jpg")]).
  vm_compute. reflexivity.
Defined.

Lemma download_keeps_files_witness :
  disk (download_files Sample.one_file 0 Demo.stocked).2 !! "x.jpg" = Some "old".
Proof. apply download_keeps_files. reflexivity. Defined.

Lemma download_names_stored_witness :
  (∃ depth entry,
     0 ≤ depth ≤ 2
     ∧ entry ∈ default [] (Sample.found_files !! depth)
     ∧ "d_.png" = stored_name entry)
  ∧ Str.forallb (λ c, negb (is_invalid c)) "d_.png" = true.
Proof.
  apply (download_names_stored Sample.found_files 2 Sample.serving "d_.png").
  - reflexivity.
  - vm_compute. by eexists.
Defined.

Section DownloadEdges.

Lemma for_each_agree {A S} (l : list A) (body1 body2 : A → S → St S) :
  (∀ x s w, x ∈ l → body1 x s w = body2 x s w) →
  ∀ s w, for_each l body1 s w = for_each l body2 s w.
Proof.
  induction l as [|x l IH]; intros Hagree s w; simpl; [done|].
  unfold bind. rewrite Hagree by constructor.
  destruct (body2 x s w) as [s1 w1]. apply IH.
  intros y s' w' Hy. apply Hagree. by constructor.
Qed.

End DownloadEdges.

(** X11.  [download_files] reads the buckets of the depths 0 to
    [max_download_depth] and no other: two bucket maps that agree on these
    depths give the same counters and the same world. *)
Theorem download_ignores_deeper (files1 files2 : gmap Z (list (string * string)))
    (max_download_depth : Z) (w : world) :
  (∀ depth, 0 ≤ depth ≤ max_download_depth → files1 !! depth = files2 !! depth) →
  download_files files1 max_download_depth w = download_files files2 max_download_depth w.
Proof.
  intros Hagree. unfold download_files. apply for_each_agree.
  intros depth c w' Hd%elem_of_seqZ. rewrite Hagree by lia. done.
Qed.

Lemma download_ignores_deeper_witness :
  download_files Demo.deeper_files 2 Sample.serving
  = download_files Sample.found_files 2 Sample.serving.
Proof.
  apply download_ignores_deeper. intros depth Hd.
  unfold Demo.deeper_files. apply lookup_insert_ne. lia.
Defined.

(** X12.  With a negative [max_download_depth] there is no depth to go
    through: all [download_files] does is to make sure that the output
    directory exists.  It returns (0, 0), makes no request and no pause and
    saves no file, whatever the buckets hold and whether the directory
    existed or not. *)
Theorem download_negative_depth (files_by_depth : gmap Z (list (string * string)))
    (max_download_depth : Z) (outdir_exists : bool) (w : world) :
  max_download_depth < 0 →
  download_files_mkdir files_by_depth max_download_depth outdir_exists w
  = ((O, O), true, w).
Proof.
  intros Hneg. unfold download_files_mkdir, makedirs, download_files, range.
  by rewrite seqZ_nil by lia.
Qed.

Lemma download_negative_depth_witness :
  download_files_mkdir Sample.found_files (-1) false Sample.serving
  = ((O, O), true, Sample.serving).
Proof. apply download_negative_depth. lia. Defined.

(** X13.  Two entries whose titles are stored under the same name collide:
    when the first is fetched and saved, the second is skipped without a
    request, a pause or a count, so that the file holds what was served for
    the first title. *)
Theorem download_collision (entry1 entry2 : string * string) (counts : nat * nat)
    (status : Z) (content : string) (rest : list (response string)) (w : world) :
  stored_name entry2 = stored_name entry1 →
  on_disk w (stored_name entry1) = false →
  filehost w = Http status content :: rest →
  succeeded (Http status content) = true →
  for_each [entry1; entry2] download_entry counts w
  = ((S counts.1, counts.2),
     World (api w) rest (<[stored_name entry1 := content]> (disk w))
       (trace w ++ [FileGet (Str.removeprefix entry1.2 "File:"); Sleep 1000])).
Proof.
  intros Hsame Hfree Hhost Hok. destruct w as [ap fh d tr]. simpl in Hhost. subst fh.
  cbn [for_each]. unfold bind at 1. rewrite download_entry_unfold, Hfree.
  rewrite (file_attempts_rate_limited _ (stored_name entry1) [] _ content rest counts
             eq_refl Hok (ex_intro _ status eq_refl) (range 5) ap d tr)
    by (vm_compute; lia).
  unfold sleep, emit. cbn [snd api filehost disk trace take length flat_map app].
  unfold bind. rewrite download_entry_skip.
  - cbn. by rewrite <- app_assoc.
  - rewrite Hsame. unfold on_disk, path_exists. cbn [fst disk].
    by rewrite lookup_insert_eq.
Qed.

Lemma download_collision_witness :
  for_each [Demo.twin_one; Demo.twin_two] download_entry (O, O) Demo.stocked
  = ((1%nat, O),
     World [] [] (<[ "a_b.jpg" := "JPEG a" ]> {[ "x.jpg" := "old" ]})
       [FileGet "a?b.jpg"; Sleep 1000]).
Proof.
  apply (download_collision Demo.twin_one Demo.twin_two (O, O) 200 "JPEG a" []
           Demo.stocked); reflexivity.
Defined.

(** ** Shape of the maps of a scan *)

Section Shape.

Lemma collect_files_lookup (category : string) (depth : Z) (files : list member) :
  ∀ (fbd : gmap Z (list (string * string))) l,
    (∀ l0, fbd !! depth = Some l0 →
           l0 ≠ [] ∧ Forall (λ e, EXTENSIONS_search e.2 = true) l0) →
    collect_files category depth files fbd !! depth = Some l →
    l ≠ [] ∧ Forall (λ e, EXTENSIONS_search e.2 = true) l.
Proof.
  unfold collect_files.
  induction files as [|f files IH]; intros fbd l Hold; simpl; [apply Hold|].
  destruct (EXTENSIONS_search (get_title f)) eqn:Himg; [|by apply IH].
  apply IH. intros l0. rewrite lookup_insert_eq. intros [= <-]. split.
  - by destruct (default [] (fbd !! depth)).
  - apply Forall_app. split; [|by repeat constructor].
    destruct (fbd !! depth) as [l1|] eqn:Hl1; simpl; [|constructor].
    by apply (Hold l1).
Qed.

Lemma sum_counts_insert (m : gmap Z nat) (d : Z) :
  sum_list (map_to_list (<[d := S (default O (m !! d))]> m)).*2
  = S (sum_list (map_to_list m).*2).
Proof.
  destruct (m !! d) as [x|] eqn:Hd; simpl.
  - rewrite <- (map_to_list_delete m d x Hd).
    rewrite <- insert_delete_eq.
    rewrite map_to_list_insert by apply lookup_delete_eq. done.
  - rewrite map_to_list_insert by done. done.
Qed.

Variable max_depth : Z.

Lemma shaped_inv_step fuel category depth rest st st' :
  queue st = (category, depth) :: rest →
  scan_entry fuel max_depth category depth rest st = Some st' →
  shaped_inv max_depth st → shaped_inv max_depth st'.
Proof.
  intros Hq Hrun [Hqueue Hfiles Hcats Htotal]. rewrite Hq in Hqueue.
  apply Forall_cons in Hqueue as [Hhead Hrest]. simpl in Hhead.
  apply scan_entry_cases in Hrun
    as [[_ ->]|(Hnew & Hle & subcats & files & evs1 & evs2 & _ & _ & _ & Hq'
                & Hp & Hf & Hc & _)]; [by split|].
  split.
  - rewrite Hq', enqueue_subcats_app. apply Forall_app. split; [done|].
    apply Forall_fmap, Forall_true. intros m. simpl. lia.
  - intros d l. rewrite Hf. destruct (decide (d = depth)) as [->|Hne].
    + intros Hl. split; [lia|].
      apply (collect_files_lookup category depth files (files_by_depth st) l); [|done].
      intros l0 Hl0. by apply (Hfiles depth l0).
    + rewrite collect_files_other by done. apply Hfiles.
  - intros d n. rewrite Hc. destruct (decide (d = depth)) as [->|Hne].
    + rewrite lookup_insert_eq. intros [= <-]. lia.
    + rewrite lookup_insert_ne by done. apply Hcats.
  - rewrite Hc, Hp, sum_counts_insert, Htotal.
    rewrite size_union by (apply disjoint_singleton_r; done).
    rewrite size_singleton. lia.
Qed.

Lemma shaped_inv_reach start_category w st :
  scan_reach max_depth (scan_init start_category w) st → shaped_inv max_depth st.
Proof.
  intros Hreach.
  apply (scan_reach_inv max_depth (shaped_inv max_depth)) in Hreach; [done| |].
  - intros fuel category depth rest s s'. apply shaped_inv_step.
  - split; simpl.
    + by repeat constructor.
    + intros d l. by rewrite lookup_empty.
    + intros d n. by rewrite lookup_empty.
    + rewrite map_to_list_empty. reflexivity.
Qed.

End Shape.

(** ** The summary, unfolded *)

Section SummaryShape.

Variables (files : gmap Z (list (string * string))) (cats : gmap Z nat).

Local Abbreviation deepest_key :=
  (max_default ((map_to_list files).*1 ++ (map_to_list cats).*1)).

Lemma print_summary_unfold :
  print_summary files cats
  = Report
      ((λ D, Row D (default O (cats !! D)) (bucket_size files D) (files_upto files D))
         <$> seqZ 0 (deepest_key + 1))
      (sum_list (map_to_list cats).*2)
      (sum_list_with (bucket_size files) (seqZ 0 (deepest_key + 1))).
Proof.
  unfold print_summary, range.
  replace (seqZ 0 (deepest_key + 1))
    with (seqZ 0 (Z.of_nat (Z.to_nat (deepest_key + 1))))
    by (unfold seqZ; by rewrite Nat2Z.id).
  by rewrite summary_loop.
Qed.

Lemma deepest_key_bounds (d : Z) :
  d ∈ dom files ∪ dom cats → d ≤ deepest_key.
Proof.
  intros Hd. apply max_default_spec.
  rewrite elem_of_app, !elem_of_keys. by apply elem_of_union.
Qed.

(** Outside the depths of the table no bucket holds a file. *)
Lemma bucket_outside (d : Z) :
  (∀ k, k ∈ dom files → 0 ≤ k) →
  ¬ (0 ≤ d < deepest_key + 1) → bucket_size files d = 0%nat.
Proof.
  intros Hnonneg Hout. unfold bucket_size.
  destruct (files !! d) as [l|] eqn:Hl; [|done].
  assert (Hd : d ∈ dom files) by (apply elem_of_dom; eauto).
  pose proof (Hnonneg d Hd).
  pose proof (deepest_key_bounds d ltac:(apply elem_of_union; by left)). lia.
Qed.

Lemma summary_total_all :
  (∀ k, k ∈ dom files → 0 ≤ k) →
  total_files (print_summary files cats) = all_files files.
Proof.
  intros Hnonneg. rewrite print_summary_unfold. simpl.
  destruct (decide (0 ≤ deepest_key + 1)) as [Hpos|Hneg].
  - rewrite <- (Z2Nat.id (deepest_key + 1)) by done. apply range_total.
    intros d Hd. pose proof (Hnonneg d Hd).
    pose proof (deepest_key_bounds d ltac:(apply elem_of_union; by left)). lia.
  - rewrite seqZ_nil by lia. simpl. symmetry.
    assert (files = ∅) as ->; [|done].
    apply map_empty. intros d. apply not_elem_of_dom. intros Hd.
    pose proof (Hnonneg d Hd).
    pose proof (deepest_key_bounds d ltac:(apply elem_of_union; by left)). lia.
Qed.

End SummaryShape.

Section CountsTotal.

Implicit Types m : gmap Z nat.

Lemma sum_counts_delete m (d : Z) :
  sum_list (map_to_list m).*2
  = (default O (m !! d) + sum_list (map_to_list (delete d m)).*2)%nat.
Proof.
  destruct (m !! d) as [x|] eqn:Hd; simpl.
  - by rewrite <- (map_to_list_delete m d x Hd).
  - by rewrite delete_id.
Qed.

Lemma range_counts (n : nat) :
  ∀ m, (∀ d, d ∈ dom m → 0 ≤ d < Z.of_nat n) →
       sum_list_with (λ d, default O (m !! d)) (seqZ 0 (Z.of_nat n))
       = sum_list (map_to_list m).*2.
Proof.
  induction n as [|n IH]; intros m Hm.
  - assert (m = ∅) as ->.
    { apply map_empty. intros i. apply not_elem_of_dom. intros Hi%Hm. lia. }
    by rewrite map_to_list_empty.
  - rewrite seqZ_S, sum_list_with_app, Z.add_0_l. simpl.
    rewrite (sum_counts_delete m (Z.of_nat n)), Nat.add_0_r, Nat.add_comm. f_equal.
    rewrite <- IH.
    + apply sum_list_with_agree. intros d [_ Hd]%elem_of_seqZ.
      rewrite lookup_delete_ne by lia. done.
    + intros d Hd. rewrite dom_delete_L in Hd.
      apply elem_of_difference in Hd as [Hd Hne]. apply Hm in Hd.
      rewrite elem_of_singleton in Hne. lia.
Qed.

End CountsTotal.

(** X14.  In every state of a scan, a bucket exists only for a depth from 0
    to [max_depth], is never empty, and holds nothing but titles that end,
    whatever the case, in [.jpg], [.jpeg] or [.png]. *)
Theorem scan_buckets_hold_images (max_depth : Z) (start_category : string) (w : world)
    (st : scan_state) (depth : Z) (bucket : list (string * string)) :
  scan_reach max_depth (scan_init start_category w) st →
  files_by_depth st !! depth = Some bucket →
  0 ≤ depth ≤ max_depth
  ∧ bucket ≠ []
  ∧ Forall (λ e, EXTENSIONS_search e.2 = true) bucket.
Proof.
  intros Hreach. apply (shaped_inv_reach max_depth start_category w st Hreach).
Qed.

Lemma scan_buckets_hold_images_witness :
  0 ≤ 2 ≤ 2
  ∧ [("D", "File:d.JPEG")] ≠ []
  ∧ Forall (λ e : string * string, EXTENSIONS_search e.2 = true) [("D", "File:d.JPEG")].
Proof.
  apply (scan_buckets_hold_images 2 "A" Sample.diamond Sample.diamond_end 2
           [("D", "File:d.JPEG")] diamond_run).
  vm_compute. reflexivity.
Defined.

(** X15.  In every state of a scan, the category counts are kept for depths
    from 0 to [max_depth] only, none of them is 0, and the TOTAL line of
    the summary, their sum, is the number of categories in the visited
    set. *)
Theorem scan_counts_visited (max_depth : Z) (start_category : string) (w : world)
    (st : scan_state) :
  scan_reach max_depth (scan_init start_category w) st →
  (∀ depth n,
     categories_by_depth st !! depth = Some n → 0 ≤ depth ≤ max_depth ∧ (0 < n)%nat)
  ∧ total_cats (print_summary (files_by_depth st) (categories_by_depth st))
    = size (processed st).
Proof.
  intros Hreach.
  destruct (shaped_inv_reach max_depth start_category w st Hreach) as [_ _ Hcats Htotal].
  split; [done|]. by rewrite print_summary_unfold.
Qed.

Lemma scan_counts_visited_witness :
  total_cats (print_summary (files_by_depth Sample.diamond_end)
                (categories_by_depth Sample.diamond_end))
  = size (processed Sample.diamond_end)
  ∧ size (processed Sample.diamond_end) = 4%nat.
Proof.
  split; [|vm_compute; reflexivity].
  exact (proj2 (scan_counts_visited 2 "A" Sample.diamond Sample.diamond_end diamond_run)).
Defined.

Lemma shaped_summary (max_depth : Z) (st : scan_state) :
  shaped_inv max_depth st →
  total_files (print_summary (files_by_depth st) (categories_by_depth st))
  = all_files (files_by_depth st)
  ∧ (total_files (print_summary (files_by_depth st) (categories_by_depth st)) = 0%nat
     ↔ files_by_depth st = ∅).
Proof.
  intros [_ Hfiles _ _].
  assert (Htotal : total_files (print_summary (files_by_depth st) (categories_by_depth st))
                   = all_files (files_by_depth st)).
  { apply summary_total_all. intros k [l Hl]%elem_of_dom.
    destruct (Hfiles k l Hl) as [? _]. lia. }
  split; [done|]. rewrite Htotal. split.
  - intros Hzero. apply map_empty. intros d.
    destruct (files_by_depth st !! d) as [l|] eqn:Hl; [|done].
    destruct (Hfiles d l Hl) as (_ & Hne & _).
    rewrite (all_files_delete _ d) in Hzero. unfold bucket_size in Hzero.
    rewrite Hl in Hzero. simpl in Hzero. destruct l; [done|simpl in Hzero; lia].
  - by intros ->.
Qed.

(** X16.  The summary of what a scan has found returns the number of files
    of all the buckets, and returns 0 exactly when the scan has bucketed no
    file at all, that is when its bucket map is empty. *)
Theorem scan_then_summary (max_depth : Z) (start_category : string) (w : world)
    (st : scan_state) :
  scan_reach max_depth (scan_init start_category w) st →
  total_files (print_summary (files_by_depth st) (categories_by_depth st))
  = all_files (files_by_depth st)
  ∧ (total_files (print_summary (files_by_depth st) (categories_by_depth st)) = 0%nat
     ↔ files_by_depth st = ∅).
Proof.
  intros Hreach. apply (shaped_summary max_depth).
  by apply (shaped_inv_reach max_depth start_category w).
Qed.

Lemma scan_then_summary_witness :
  total_files (print_summary (files_by_depth Sample.diamond_end)
                 (categories_by_depth Sample.diamond_end))
  = all_files (files_by_depth Sample.diamond_end)
  ∧ all_files (files_by_depth Sample.diamond_end) = 3%nat.
Proof.
  split; [|vm_compute; reflexivity].
  exact (proj1 (scan_then_summary 2 "A" Sample.diamond Sample.diamond_end diamond_run)).
Defined.

Section SummaryColumns.

Variables (files : gmap Z (list (string * string))) (cats : gmap Z nat).

Local Abbreviation line :=
  (λ D : Z, Row D (default O (cats !! D)) (bucket_size files D) (files_upto files D)).

Lemma column_files (l : list Z) :
  sum_list (row_files <$> (line <$> l)) = sum_list_with (bucket_size files) l.
Proof. induction l as [|d l IH]; simpl; [done|]. f_equal. exact IH. Qed.

Lemma column_cats (l : list Z) :
  sum_list (row_cats <$> (line <$> l)) = sum_list_with (λ d, default O (cats !! d)) l.
Proof. induction l as [|d l IH]; simpl; [done|]. f_equal. exact IH. Qed.

Lemma last_cumulative (n : nat) :
  default O (row_cumulative <$> last (line <$> seqZ 0 (Z.of_nat n)))
  = sum_list_with (bucket_size files) (seqZ 0 (Z.of_nat n)).
Proof.
  destruct n as [|n]; [done|].
  rewrite seqZ_S, fmap_app, Z.add_0_l.
  change (line <$> [Z.of_nat n]) with [line (Z.of_nat n)].
  rewrite last_snoc. cbn [fmap option_fmap option_map default row_cumulative].
  rewrite files_upto_nat, sum_list_with_app. simpl. lia.
Qed.

End SummaryColumns.

(** X17.  In the table of the summary the images column adds up to the
    value returned, and so does the running total of the last line (0 when
    the table has no line): the loop keeps its two accumulators equal. *)
Theorem summary_columns_add_up (files_by_depth : gmap Z (list (string * string)))
    (categories_by_depth : gmap Z nat) :
  sum_list (row_files <$> rows (print_summary files_by_depth categories_by_depth))
  = total_files (print_summary files_by_depth categories_by_depth)
  ∧ default O (row_cumulative
                 <$> last (rows (print_summary files_by_depth categories_by_depth)))
    = total_files (print_summary files_by_depth categories_by_depth).
Proof.
  rewrite print_summary_unfold. cbn [rows total_files].
  split; [apply column_files|].
  set (M := max_default _).
  replace (seqZ 0 (M + 1)) with (seqZ 0 (Z.of_nat (Z.to_nat (M + 1))))
    by (unfold seqZ; by rewrite Nat2Z.id).
  apply last_cumulative.
Qed.

(** X18.  For buckets at non-negative depths, the summary returns 0 exactly
    when every bucket is empty: this is the value on which the driver
    decides that there is nothing to download. *)
Theorem summary_zero_iff (files_by_depth : gmap Z (list (string * string)))
    (categories_by_depth : gmap Z nat) :
  (∀ k, k ∈ dom files_by_depth → 0 ≤ k) →
  total_files (print_summary files_by_depth categories_by_depth) = 0%nat
  ↔ ∀ depth, bucket_size files_by_depth depth = 0%nat.
Proof.
  intros Hnonneg. rewrite print_summary_unfold. cbn [total_files].
  set (M := max_default _). split.
  - intros Hzero depth.
    destruct (decide (0 ≤ depth < M + 1)) as [Hin|Hout].
    + assert (Hd : depth ∈ seqZ 0 (M + 1)) by (apply elem_of_seqZ; lia).
      pose proof (sum_list_with_in depth (bucket_size files_by_depth) _ Hd). lia.
    + by apply (bucket_outside files_by_depth categories_by_depth).
  - intros Hall. rewrite (sum_list_with_agree _ (λ _, O)) by (intros; apply Hall).
    generalize (seqZ 0 (M + 1)). intros l. by induction l.
Qed.

Lemma summary_zero_iff_witness :
  total_files (print_summary Sample.found_files Sample.found_cats) = 0%nat
  ↔ ∀ depth, bucket_size Sample.found_files depth = 0%nat.
Proof.
  apply summary_zero_iff.
  intros d Hd. unfold Sample.found_files in Hd.
  rewrite dom_insert_L, dom_singleton_L in Hd.
  apply elem_of_union in Hd as [Hd|Hd]; apply elem_of_singleton in Hd; lia.
Defined.

(** X19.  For category counts at non-negative depths, the categories column
    of the table adds up to the TOTAL line: no depth with a count is left
    out of the table. *)
Theorem summary_cats_add_up (files_by_depth : gmap Z (list (string * string)))
    (categories_by_depth : gmap Z nat) :
  (∀ k, k ∈ dom categories_by_depth → 0 ≤ k) →
  sum_list (row_cats <$> rows (print_summary files_by_depth categories_by_depth))
  = total_cats (print_summary files_by_depth categories_by_depth).
Proof.
  intros Hnonneg. rewrite print_summary_unfold. cbn [rows total_cats].
  rewrite column_cats. set (M := max_default _).
  assert (Hbound : ∀ d, d ∈ dom categories_by_depth → 0 ≤ d ≤ M).
  { intros d Hd. pose proof (Hnonneg d Hd).
    pose proof (deepest_key_bounds files_by_depth categories_by_depth d
                  ltac:(apply elem_of_union; by right)). fold M in H0. lia. }
  destruct (decide (0 ≤ M + 1)) as [Hpos|Hneg].
  - rewrite <- (Z2Nat.id (M + 1)) by done. apply range_counts.
    intros d Hd%Hbound. lia.
  - rewrite seqZ_nil by lia.
    assert (categories_by_depth = ∅) as ->; [|by rewrite map_to_list_empty].
    apply map_empty. intros d. apply not_elem_of_dom. intros Hd%Hbound. lia.
Qed.

Lemma summary_cats_add_up_witness :
  sum_list (row_cats <$> rows (print_summary Sample.found_files Sample.found_cats))
  = total_cats (print_summary Sample.found_files Sample.found_cats).
Proof.
  apply summary_cats_add_up.
  intros d Hd. unfold Sample.found_cats in Hd.
  rewrite !dom_insert_L, dom_singleton_L in Hd.
  repeat (apply elem_of_union in Hd as [Hd|Hd]; [apply elem_of_singleton in Hd; lia|]).
  apply elem_of_singleton in Hd. lia.
Defined.

(** ** Order of a scan *)

Section BreadthFirst.

Lemma sorted_constant (x : Z) (l : list Z) :
  Forall (λ y, y = x) l → StronglySorted Z.le l.
Proof.
  induction 1 as [|y l -> Hl IH]; constructor; [done|].
  eapply Forall_impl; [exact Hl|]. simpl. intros z ->. lia.
Qed.

Variables (max_depth : Z) (start_category : string).

Lemma bfs_inv_step fuel category depth rest st st' :
  queue st = (category, depth) :: rest →
  scan_entry fuel max_depth category depth rest st = Some st' →
  bfs_inv start_category st → bfs_inv start_category st'.
Proof.
  intros Hq Hrun [Hsorted Hband Hroot Hstart]. rewrite Hq in *. cbn [fmap list_fmap] in *.
  change ((category, depth).2) with depth in *.
  apply StronglySorted_app in Hsorted as (Hcross & Hs1 & Hs2).
  apply StronglySorted_cons in Hs2 as [Hhead Hs2]. rewrite Forall_forall in Hhead.
  apply scan_entry_cases in Hrun
    as [[_ ->]|(_ & _ & subcats & files & evs1 & evs2 & _ & Hev1 & Hev2 & Hq'
                & _ & _ & _ & Ht)]; cbn [queue env].
  { split; cbn [queue env].
    - apply StronglySorted_app. split_and!; [|done|done].
      intros x1 x2 H1 H2. apply Hcross; [done|]. by constructor.
    - intros x y Hx Hy. apply Hband; by constructor.
    - done.
    - intros Hnil. specialize (Hstart Hnil). by apply Forall_cons in Hstart as [_ ?]. }
  pose proof (scanned_step (trace (env st)) evs1 evs2 category _ _ depth Hev1 Hev2) as Hs.
  rewrite <- Ht in Hs.
  set (children := (λ subcat : member,
                      (Str.removeprefix (get_title subcat) "Category:", depth + 1))
                     <$> subcats) in *.
  assert (Hchildren : Forall (λ y, y = depth + 1) children.*2).
  { apply Forall_fmap, Forall_fmap, Forall_true. by intros m. }
  split.
  - rewrite Hs, Hq', enqueue_subcats_app. fold children.
    rewrite !fmap_app. cbn [fmap list_fmap]. change ((category, depth).2) with depth.
    rewrite <- app_assoc.
    apply StronglySorted_app. split_and!; [| done |].
    + intros x1 x2 H1 [H2|[H2|H2]%elem_of_app]%elem_of_cons.
      * subst x2. apply Hcross; [done|]. constructor.
      * apply Hcross; [done|]. by constructor.
      * rewrite Forall_forall in Hchildren. rewrite (Hchildren x2 H2).
        assert (x1 ≤ depth) by (apply Hcross; [done|constructor]). lia.
    + apply StronglySorted_cons. split.
      * apply Forall_app. split; [by apply Forall_forall|].
        eapply Forall_impl; [exact Hchildren|]. simpl. intros z ->. lia.
      * apply StronglySorted_app. split_and!; [|done|by eapply sorted_constant].
        intros x1 x2 H1 H2. rewrite Forall_forall in Hchildren.
        rewrite (Hchildren x2 H2). apply (Hband depth x1); by constructor.
  - rewrite Hq', enqueue_subcats_app. fold children. rewrite fmap_app.
    rewrite Forall_forall in Hchildren.
    intros x y [Hx|Hx]%elem_of_app [Hy|Hy]%elem_of_app.
    + apply Hband; by constructor.
    + rewrite (Hchildren y Hy). specialize (Hhead x Hx). lia.
    + rewrite (Hchildren x Hx).
      assert (y ≤ depth + 1) by (apply (Hband depth y); by constructor). lia.
    + rewrite (Hchildren x Hx), (Hchildren y Hy). lia.
  - intros e. rewrite Hs. destruct (scanned (trace (env st))) as [|e0 s0] eqn:Hscanned.
    + simpl. intros [= <-]. specialize (Hstart eq_refl).
      by apply Forall_cons in Hstart as [? _].
    + simpl. apply Hroot.
  - rewrite Hs. intros Hnil. by apply app_nil in Hnil as [_ ?].
Qed.

Lemma bfs_inv_reach w st :
  trace w = [] →
  scan_reach max_depth (scan_init start_category w) st → bfs_inv start_category st.
Proof.
  intros Hw Hreach.
  apply (scan_reach_inv max_depth (bfs_inv start_category)) in Hreach; [done| |].
  - intros fuel category depth rest s s'. apply bfs_inv_step.
  - split; simpl; rewrite ?Hw; simpl.
    + by repeat constructor.
    + intros x y ->%list_elem_of_singleton ->%list_elem_of_singleton. lia.
    + done.
    + by repeat constructor.
Qed.

End BreadthFirst.

(** X20.  A scan processes the categories breadth first: along the progress
    lines the depth never decreases, and the first category processed, if
    any, is the root at depth 0. *)
Theorem scan_breadth_first (max_depth : Z) (start_category : string)
    (a : list (response page)) (fh : list (response string)) (d : gmap string string)
    (st : scan_state) :
  scan_reach max_depth (scan_init start_category (World a fh d [])) st →
  StronglySorted Z.le (scanned (trace (env st))).*2
  ∧ ∀ e, head (scanned (trace (env st))) = Some e → e = (start_category, 0).
Proof.
  intros Hreach.
  destruct (bfs_inv_reach max_depth start_category (World a fh d []) st eq_refl Hreach)
    as [Hsorted _ Hroot _].
  split; [|done]. by apply StronglySorted_app_1_l in Hsorted.
Qed.

Lemma scan_breadth_first_witness :
  StronglySorted Z.le (scanned (trace (env Sample.diamond_end))).*2
  ∧ (scanned (trace (env Sample.diamond_end))).*2 = [0; 1; 1; 2].
Proof.
  split; [|vm_compute; reflexivity].
  exact (proj1 (scan_breadth_first 2 "A" _ [] ∅ Sample.diamond_end diamond_run)).
Defined.

(** ** Footprint of a scan *)

Section ScanFootprint.

Lemma scan_footprint_refl w : scan_footprint w w.
Proof. split_and!; [done..|]. exists [], []. by rewrite app_nil_r. Qed.

Lemma scan_footprint_trans w1 w2 w3 :
  scan_footprint w1 w2 → scan_footprint w2 w3 → scan_footprint w1 w3.
Proof.
  intros (F1 & D1 & used1 & evs1 & A1 & T1 & R1) (F2 & D2 & used2 & evs2 & A2 & T2 & R2).
  split_and!; [congruence..|]. exists (used1 ++ used2), (evs1 ++ evs2).
  rewrite A1, A2, T2, T1, !app_assoc. split_and!; [done|done|by apply Forall_app].
Qed.

Lemma enumerated_scan_footprint category cmtype w w' :
  enumerated category cmtype w w' → scan_footprint w w'.
Proof.
  intros (F & D & used & evs & A & T & R & _). split_and!; [done..|].
  exists used, evs. split_and!; [done..|].
  eapply Forall_impl; [exact R|]. by intros [].
Qed.

Lemma members_scan_footprint fuel category cmtype max_retries w r w' :
  get_category_members fuel category cmtype max_retries w = Some (r, w') →
  scan_footprint w w'.
Proof.
  intros Hrun%get_members_loop_enumerated. by eapply enumerated_scan_footprint.
Qed.

Lemma scan_entry_footprint fuel max_depth category depth rest st st' :
  scan_entry fuel max_depth category depth rest st = Some st' →
  scan_footprint (env st) (env st').
Proof.
  unfold scan_entry. destruct (_ || _).
  { intros [= <-]. apply scan_footprint_refl. }
  cbn [emit].
  set (w0 := World (api (env st)) (filehost (env st)) (disk (env st))
               (trace (env st) ++ [Scanning category depth])).
  assert (H0 : scan_footprint (env st) w0).
  { split_and!; [done..|]. exists [], [Scanning category depth].
    split_and!; [done|done|by repeat constructor]. }
  destruct (depth <? max_depth).
  - destruct (get_category_members fuel category "subcat" 5 w0)
      as [[subcats w1]|] eqn:Hsub; [|done]. cbn.
    destruct (get_category_members fuel category "file" 5 w1)
      as [[files w2]|] eqn:Hfiles; [|done]. cbn.
    intros [= <-]. cbn [env].
    apply members_scan_footprint in Hsub, Hfiles.
    eapply scan_footprint_trans; [exact H0|].
    by eapply scan_footprint_trans.
  - cbn.
    destruct (get_category_members fuel category "file" 5 w0)
      as [[files w2]|] eqn:Hfiles; [|done]. cbn.
    intros [= <-]. cbn [env].
    apply members_scan_footprint in Hfiles.
    by eapply scan_footprint_trans.
Qed.

Lemma scan_reach_footprint max_depth st st' :
  scan_reach max_depth st st' → scan_footprint (env st) (env st').
Proof.
  induction 1 as [|fuel s c d rest s' s'' Hq Hrun _ IH]; [apply scan_footprint_refl|].
  apply scan_entry_footprint in Hrun. by eapply scan_footprint_trans.
Qed.

End ScanFootprint.

(** X21.  A scan never downloads and never writes: when [scan_categories]
    returns, the file endpoint and the output directory are as they were,
    the answers of the metadata endpoint were used from the front, and the
    trace has gained no file request. *)
Theorem scan_leaves_files_alone (fuel : nat) (start_category : string) (max_depth : Z)
    (w w' : world) (files : gmap Z (list (string * string))) (cats : gmap Z nat) :
  scan_categories fuel start_category max_depth w = Some (files, cats, w') →
  filehost w' = filehost w ∧ disk w' = disk w
  ∧ ∃ used evs,
      api w = used ++ api w'
      ∧ trace w' = trace w ++ evs
      ∧ Forall is_scan_event evs.
Proof.
  unfold scan_categories.
  destruct (scan_loop fuel max_depth (scan_init start_category w)) as [st|] eqn:Hloop;
    [|done].
  cbn. intros [= _ _ <-].
  apply scan_loop_reach in Hloop as [Hreach _].
  apply (scan_reach_footprint max_depth _ _ Hreach).
Qed.

Lemma scan_leaves_files_alone_witness :
  filehost (env Sample.diamond_end) = filehost Sample.diamond
  ∧ disk (env Sample.diamond_end) = disk Sample.diamond
  ∧ ∃ used evs,
      api Sample.diamond = used ++ api (env Sample.diamond_end)
      ∧ trace (env Sample.diamond_end) = trace Sample.diamond ++ evs
      ∧ Forall is_scan_event evs.
Proof.
  apply (scan_leaves_files_alone 6 "A" 2 Sample.diamond (env Sample.diamond_end)
           (files_by_depth Sample.diamond_end) (categories_by_depth Sample.diamond_end)).
  vm_compute. reflexivity.
Defined.

(** ** Termination of a scan *)

Section ScanTermination.

Lemma members_left_app (l k : list (response page)) :
  members_left (l ++ k) = (members_left l + members_left k)%nat.
Proof. apply sum_list_with_app. Qed.

(** A page the retry loop returns is one of the answers it used up. *)
Lemma api_attempts_page max_retries category cmtype token attempts :
  ∀ w data w',
    api_attempts max_retries category cmtype token attempts w = (Some data, w') →
    ∃ used s, api w = used ++ Http s data :: api w'.
Proof.
  induction attempts as [|attempt attempts IH]; intros [ap fh d tr] data w'; [done|].
  cbn [api_attempts]. unfold bind, sleep, api_get, emit, bind, ret. simpl.
  assert (Hnext : ∀ ap' used0 tr0,
    ap = used0 ++ ap' →
    api_attempts max_retries category cmtype token attempts (World ap' fh d tr0)
    = (Some data, w') →
    ∃ used s, ap = used ++ Http s data :: api w').
  { intros ap' used0 tr0 -> (used & s & Hused)%IH. simpl in Hused.
    exists (used0 ++ used), s. by rewrite Hused, app_assoc. }
  destruct ap as [|resp ap']; simpl.
  - destruct (attempt =? max_retries - 1); [done|]. by apply (Hnext [] []).
  - destruct resp as [|s data0].
    + destruct (attempt =? max_retries - 1); [done|].
      by apply (Hnext ap' [ConnectionError]).
    + destruct (s =? 429); [by apply (Hnext ap' [Http s data0])|].
      destruct (raises_for_status s).
      * destruct (attempt =? max_retries - 1); [done|].
        by apply (Hnext ap' [Http s data0]).
      * intros [= <- <-]. by exists [], s.
Qed.

(** The members an enumeration returns were listed by answers it used up. *)
Lemma get_members_loop_measure fuel max_retries category cmtype :
  ∀ results token w r w',
    get_members_loop fuel max_retries category cmtype results token w = Some (r, w') →
    (length r + members_left (api w') ≤ length results + members_left (api w))%nat.
Proof.
  induction fuel as [|fuel IH]; intros results token w r w'; [done|].
  cbn [get_members_loop].
  destruct (api_attempts _ _ _ _ _ w) as [[data|] w1] eqn:Hrun.
  - apply api_attempts_page in Hrun as (used & s & Hused).
    assert (Hpage : (length (categorymembers data) + members_left (api w1)
                     ≤ members_left (api w))%nat).
    { rewrite Hused, members_left_app. simpl. lia. }
    case_decide.
    + intros [= <- <-]. rewrite length_app. lia.
    + intros Hloop%IH. rewrite length_app in Hloop. lia.
  - pose proof (enumerating_api_attempts category cmtype max_retries token
                  (range max_retries) w) as (_ & _ & used & evs & Hused & _).
    rewrite Hrun in Hused. simpl in Hused.
    intros [= <- <-]. rewrite Hused, members_left_app. lia.
Qed.

Lemma enqueue_subcats_length depth subcats q :
  length (enqueue_subcats depth subcats q) = (length q + length subcats)%nat.
Proof. by rewrite enqueue_subcats_app, length_app, length_fmap. Qed.

(** With more fuel than answers left, the body of the loop returns, in a
    state of smaller measure. *)
Lemma scan_entry_progress fuel max_depth category depth rest st :
  queue st = (category, depth) :: rest →
  (length (api (env st)) < fuel)%nat →
  ∃ st',
    scan_entry fuel max_depth category depth rest st = Some st'
    ∧ (scan_measure st' < scan_measure st)%nat.
Proof.
  intros Hq Hfuel. unfold scan_entry, scan_measure. rewrite Hq.
  destruct (_ || _).
  { eexists. split; [done|]. simpl. lia. }
  cbn [emit].
  set (w0 := World (api (env st)) (filehost (env st)) (disk (env st))
               (trace (env st) ++ [Scanning category depth])).
  destruct (depth <? max_depth).
  - destruct (get_category_members_returns fuel category "subcat" 5 w0 Hfuel)
      as (subcats & w1 & Hsub & Hlen1).
    rewrite Hsub. cbn.
    destruct (get_category_members_returns fuel category "file" 5 w1)
      as (files & w2 & Hfiles & Hlen2); [simpl in Hlen1; lia|].
    rewrite Hfiles. cbn. eexists. split; [done|]. cbn [queue env].
    apply get_members_loop_measure in Hsub, Hfiles.
    rewrite enqueue_subcats_length. simpl in *. lia.
  - cbn.
    destruct (get_category_members_returns fuel category "file" 5 w0 Hfuel)
      as (files & w2 & Hfiles & Hlen2).
    rewrite Hfiles. cbn. eexists. split; [done|]. cbn [queue env].
    apply get_members_loop_measure in Hfiles. simpl in *. lia.
Qed.

Lemma scan_loop_returns max_depth fuel :
  ∀ st, (scan_measure st < fuel)%nat → ∃ st', scan_loop fuel max_depth st = Some st'.
Proof.
  induction fuel as [|fuel IH]; intros st Hfuel; [lia|].
  cbn [scan_loop]. destruct (queue st) as [|[category depth] rest] eqn:Hq; [by eexists|].
  destruct (scan_entry_progress fuel max_depth category depth rest st Hq)
    as (st1 & Hrun & Hless).
  { unfold scan_measure in Hfuel. rewrite Hq in Hfuel. simpl in Hfuel. lia. }
  rewrite Hrun. cbn. apply IH. lia.
Qed.

End ScanTermination.

(** X22.  As long as the metadata endpoint has finitely many answers left,
    a scan ends: with more fuel than one plus the number of these answers
    plus the number of members they list, [scan_categories] returns its two
    maps, whatever the bound and whatever the answers are. *)
Theorem scan_terminates (fuel : nat) (start_category : string) (max_depth : Z)
    (w : world) :
  (1 + members_left (api w) + length (api w) < fuel)%nat →
  ∃ files cats w',
    scan_categories fuel start_category max_depth w = Some (files, cats, w').
Proof.
  intros Hfuel. unfold scan_categories.
  destruct (scan_loop_returns max_depth fuel (scan_init start_category w))
    as [st Hloop]; [done|].
  rewrite Hloop. cbn. by eexists _, _, _.
Qed.

Lemma scan_terminates_witness :
  ∃ files cats w', scan_categories 17 "A" 2 Sample.diamond = Some (files, cats, w').
Proof. apply scan_terminates. vm_compute. lia. Defined.

(** ** The driver *)

Section DriverFacts.

Lemma scan_categories_shaped fuel start_category max_depth w files cats w1 :
  scan_categories fuel start_category max_depth w = Some (files, cats, w1) →
  ∃ st,
    shaped_inv max_depth st
    ∧ files = files_by_depth st ∧ cats = categories_by_depth st ∧ w1 = env st.
Proof.
  unfold scan_categories.
  destruct (scan_loop fuel max_depth (scan_init start_category w)) as [st|] eqn:Hloop;
    [|done].
  cbn. intros [= <- <- <-]. exists st. split; [|done].
  apply scan_loop_reach in Hloop as [Hreach _].
  by apply (shaped_inv_reach max_depth start_category w).
Qed.

(** The buckets of the first depths never hold more than all the buckets. *)
Lemma files_upto_le_all (files : gmap Z (list (string * string))) (D : Z) :
  (∀ k, k ∈ dom files → 0 ≤ k) → (files_upto files D ≤ all_files files)%nat.
Proof.
  intros Hnonneg.
  assert (Hbound : ∃ M, ∀ d, d ∈ dom files → d ≤ M).
  { eexists. intros d Hd.
    apply (deepest_key_bounds files ∅ d). apply elem_of_union. by left. }
  destruct Hbound as [M HM].
  assert (Hn : ∃ n : nat, D + 1 ≤ Z.of_nat n ∧ M + 1 ≤ Z.of_nat n).
  { exists (Z.to_nat (Z.max (D + 1) (M + 1))). lia. }
  destruct Hn as (n & HnD & HnM).
  assert (Hall : sum_list_with (bucket_size files) (seqZ 0 (Z.of_nat n)) = all_files files).
  { apply range_total. intros d Hd. pose proof (Hnonneg d Hd). pose proof (HM d Hd). lia. }
  rewrite <- Hall. unfold files_upto.
  destruct (decide (0 ≤ D + 1)) as [Hpos|Hneg]; [|rewrite seqZ_nil by lia; simpl; lia].
  replace (Z.of_nat n) with ((D + 1) + (Z.of_nat n - (D + 1))) by lia.
  rewrite (seqZ_app 0 (D + 1) (Z.of_nat n - (D + 1))) by lia.
  rewrite sum_list_with_app. lia.
Qed.

End DriverFacts.

(** X23.  When the scan has bucketed no image, the driver exits with status
    0 right after the summary: whatever the operator would type, the world
    is the one the scan left, so that nothing is requested from the file
    endpoint and nothing is written. *)
Theorem main_aborts_without_images (strip : string → string) (int : string → option Z)
    (fuel : nat) (line : string) (w w1 : world) (cats : gmap Z nat) :
  scan_categories fuel CATEGORY MAX_DEPTH w = Some (∅, cats, w1) →
  main strip int fuel line w = Some (Exit 0, w1).
Proof.
  intros Hscan. unfold main. rewrite Hscan. cbn.
  rewrite print_summary_unfold. cbn [total_files].
  set (l := seqZ 0 _).
  assert (sum_list_with (bucket_size ∅) l = 0%nat) as ->; [|done].
  clear. induction l as [|d l IH]; [done|]. simpl. by rewrite IH.
Qed.

Lemma main_aborts_without_images_witness :
  main Demo.strip_none Demo.int_digit 3 "1" Demo.barren
  = Some (Exit 0,
          World [] [Http 200 "JPEG a"] ∅
            [Scanning CATEGORY 0; Sleep 200; ApiGet CATEGORY "subcat" EmptyString;
             Sleep 200; ApiGet CATEGORY "file" EmptyString]).
Proof.
  apply (main_aborts_without_images Demo.strip_none Demo.int_digit 3 "1" Demo.barren _
           {[ 0 := 1%nat ]}).
  vm_compute. reflexivity.
Defined.

(** X24.  When the scan has found images and the operator answers [q] or
    [Q], or something [int] rejects, the driver exits before the download
    phase, with status 0 for the former and 1 for the latter, in the world
    the scan left. *)
Theorem main_stops_on_input (strip : string → string) (int : string → option Z)
    (fuel : nat) (line : string) (w w1 : world)
    (files : gmap Z (list (string * string))) (cats : gmap Z nat) :
  scan_categories fuel CATEGORY MAX_DEPTH w = Some (files, cats, w1) →
  files ≠ ∅ →
  Str.lower (strip line) = "q" ∨ int (strip line) = None →
  main strip int fuel line w
  = Some (Exit (if decide (Str.lower (strip line) = "q") then 0 else 1), w1).
Proof.
  intros Hscan Hfiles Hinput. unfold main. rewrite Hscan. cbn.
  apply scan_categories_shaped in Hscan as (st & Hshape & -> & -> & ->).
  destruct (shaped_summary MAX_DEPTH st Hshape) as [_ Hzero].
  destruct (Nat.eqb_spec
              (total_files (print_summary (files_by_depth st) (categories_by_depth st))) 0)
    as [Htotal|_]; [by apply Hzero in Htotal|].
  destruct (decide (Str.lower (strip line) = "q")) as [Hq|Hq]; [done|].
  destruct Hinput as [Hq' | Hnone]; [done|]. by rewrite Hnone.
Qed.

Lemma main_stops_on_input_witness :
  main Demo.strip_none Demo.int_digit 3 "seven" Demo.session
  = Some (Exit 1, Demo.session_scanned).
Proof.
  apply (main_stops_on_input Demo.strip_none Demo.int_digit 3 "seven" Demo.session
           Demo.session_scanned {[ 0 := [(CATEGORY, "File:a.jpg")] ]} {[ 0 := 1%nat ]}).
  - vm_compute. reflexivity.
  - intros H. apply (f_equal (λ m, m !! 0)) in H. vm_compute in H. discriminate.
  - right. reflexivity.
Defined.

(** X25.  When the driver runs to its end, its final tally never exceeds
    what the summary announced: downloads and errors together are at most
    the total number of images found by the scan, and the download phase
    has made no further request to the metadata endpoint. *)
Theorem main_tally_bounded (strip : string → string) (int : string → option Z)
    (fuel : nat) (line : string) (w w2 : world) (downloaded errors : nat) :
  main strip int fuel line w = Some (Done downloaded errors, w2) →
  ∃ files cats w1,
    scan_categories fuel CATEGORY MAX_DEPTH w = Some (files, cats, w1)
    ∧ (downloaded + errors ≤ total_files (print_summary files cats))%nat
    ∧ api w2 = api w1.
Proof.
  unfold main.
  destruct (scan_categories fuel CATEGORY MAX_DEPTH w) as [[[files cats] w1]|] eqn:Hscan;
    [|done].
  cbn. destruct (_ =? _)%nat; [done|].
  destruct (decide _); [done|].
  destruct (int (strip line)) as [depth|]; [|done].
  pose proof (download_files_downloaded files depth w1) as [Hapi Hcounts _ _ _ _ _].
  destruct (download_files files depth w1) as [[dn er] w2'] eqn:Hdl.
  intros [= <- <- <-]. exists files, cats, w1. split; [done|]. split; [|done].
  apply scan_categories_shaped in Hscan as (st & Hshape & -> & -> & ->).
  destruct (shaped_summary MAX_DEPTH st Hshape) as [-> _].
  rewrite entries_upto_length in Hcounts. simpl in Hcounts.
  pose proof (files_upto_le_all (files_by_depth st) depth) as Hle.
  destruct Hshape as [_ Hfiles _ _].
  assert (files_upto (files_by_depth st) depth ≤ all_files (files_by_depth st))%nat; [|lia].
  apply Hle. intros k [l Hl]%elem_of_dom. destruct (Hfiles k l Hl) as [? _]. lia.
Qed.

Lemma main_tally_bounded_witness :
  ∃ files cats w1,
    scan_categories 3 CATEGORY MAX_DEPTH Demo.session = Some (files, cats, w1)
    ∧ (1 + 0 ≤ total_files (print_summary files cats))%nat
    ∧ api (World [] [] {[ "a.jpg" := "JPEG a" ]}
             (trace Demo.session_scanned ++ [FileGet "a.jpg"; Sleep 1000]))
      = api w1.
Proof.
  apply (main_tally_bounded Demo.strip_none Demo.int_digit 3 "0" Demo.session).
  vm_compute. reflexivity.
Defined.

(** ** Titles and names *)

Section StringFacts.

Implicit Types s t p r : string.

Lemma str_app_cons (a : ascii) s t : String a s +:+ t = String a (s +:+ t).
Proof. reflexivity. Qed.

Lemma str_app_nil_r s : s +:+ EmptyString = s.
Proof. induction s as [|a s IH]; [done|]. by rewrite str_app_cons, IH. Qed.

Lemma str_app_assoc s t r : (s +:+ t) +:+ r = s +:+ (t +:+ r).
Proof. induction s as [|a s IH]; [done|]. by rewrite !str_app_cons, IH. Qed.

Lemma str_rev_app_spec s : ∀ acc, String.rev_app s acc = String.rev s +:+ acc.
Proof.
  unfold String.rev. induction s as [|a s IH]; intros acc; [done|].
  simpl. rewrite (IH (String a acc)), (IH (String a EmptyString)).
  by rewrite str_app_assoc.
Qed.

Lemma str_rev_cons (a : ascii) s :
  String.rev (String a s) = String.rev s +:+ String a EmptyString.
Proof. unfold String.rev at 1. simpl. apply str_rev_app_spec. Qed.

Lemma str_rev_app s t : String.rev (s +:+ t) = String.rev t +:+ String.rev s.
Proof.
  induction s as [|a s IH]; [by rewrite str_app_nil_r|].
  by rewrite str_app_cons, !str_rev_cons, IH, str_app_assoc.
Qed.

Lemma str_rev_involutive s : String.rev (String.rev s) = s.
Proof.
  induction s as [|a s IH]; [done|].
  by rewrite str_rev_cons, str_rev_app, IH.
Qed.

Lemma strip_Some p : ∀ s r, Str.strip p s = Some r → s = p +:+ r.
Proof.
  induction p as [|a p IH]; intros s r; simpl; [by intros [= ->]|].
  destruct s as [|b s]; [done|].
  destruct (Ascii.eqb_spec a b) as [->|]; [|done].
  intros ->%IH. done.
Qed.

Lemma endswith_iff s suffix :
  Str.endswith s suffix = true ↔ ∃ stem, s = stem +:+ suffix.
Proof.
  unfold Str.endswith. rewrite bool_decide_eq_true. split.
  - intros [r Hr%strip_Some]. exists (String.rev r).
    rewrite <- (str_rev_involutive s), Hr, str_rev_app.
    by rewrite str_rev_involutive.
  - intros [stem ->]. rewrite str_rev_app, strip_app. by eexists.
Qed.

Lemma str_map_app (f : ascii → ascii) s t :
  Str.map f (s +:+ t) = Str.map f s +:+ Str.map f t.
Proof. induction s as [|a s IH]; [done|]. simpl. by rewrite !str_app_cons, IH. Qed.

Lemma str_map_app_inv (f : ascii → ascii) s : ∀ a b,
  Str.map f s = a +:+ b →
  ∃ s1 s2, s = s1 +:+ s2 ∧ Str.map f s1 = a ∧ Str.map f s2 = b.
Proof.
  induction s as [|c s IH]; intros a b.
  - destruct a; [|done]. destruct b; [|done]. by exists EmptyString, EmptyString.
  - destruct a as [|c' a].
    + intros Hb. exists EmptyString, (String c s). done.
    + simpl. rewrite str_app_cons. intros [= Hc (s1 & s2 & -> & H1 & H2)%IH].
      exists (String c s1), s2. simpl. by rewrite Hc, H1, H2.
Qed.

Lemma drop_final_newline_cases s :
  (s = Str.drop_final_newline s +:+ Str.newline)
  ∨ (Str.drop_final_newline s = s ∧ Str.endswith s Str.newline = false).
Proof.
  unfold Str.drop_final_newline, Str.endswith.
  change (String.rev Str.newline) with Str.newline.
  destruct (Str.strip Str.newline (String.rev s)) as [r|] eqn:Hr.
  - left. apply strip_Some in Hr.
    rewrite <- (str_rev_involutive s) at 1. by rewrite Hr, str_rev_app.
  - right. split; [done|]. apply bool_decide_eq_false. by intros [? ?].
Qed.

Lemma drop_final_newline_app s :
  Str.drop_final_newline (s +:+ Str.newline) = s.
Proof.
  unfold Str.drop_final_newline.
  rewrite str_rev_app. change (String.rev Str.newline) with Str.newline.
  by rewrite strip_app, str_rev_involutive.
Qed.

(** The three suffixes of the pattern, in lower case. *)
Lemma suffix_not_newline s ext :
  Str.lower ext ∈ [".jpg"; ".jpeg"; ".png"] →
  Str.endswith (s +:+ ext) Str.newline = false.
Proof.
  intros Hext. apply not_true_is_false. intros [stem Hstem]%endswith_iff.
  assert (Hlast : ∃ ext', ext = ext' +:+ Str.newline).
  { assert (ext ≠ EmptyString) as Hne.
    { intros ->. simpl in Hext.
      repeat (apply elem_of_cons in Hext as [Hext|Hext]; [done|]).
      by apply elem_of_nil in Hext. }
    clear Hext. revert stem Hstem. induction s as [|a s IH]; intros stem Hstem.
    - by exists stem.
    - destruct stem as [|b stem].
      + rewrite str_app_cons in Hstem. injection Hstem as _ Hs.
        destruct s; [by destruct ext|done].
      + rewrite !str_app_cons in Hstem. injection Hstem as _ Hs. by apply (IH stem). }
  destruct Hlast as [ext' ->].
  unfold Str.lower in Hext. rewrite str_map_app in Hext.
  assert (Hends : Str.endswith (Str.map Str.lower_ascii ext' +:+ Str.newline) Str.newline
                  = true) by (apply endswith_iff; by eexists).
  change (Str.map Str.lower_ascii Str.newline) with Str.newline in Hext.
  repeat (apply elem_of_cons in Hext as [Hext|Hext];
          [rewrite Hext in Hends; vm_compute in Hends; discriminate|]).
  by apply elem_of_nil in Hext.
Qed.

End StringFacts.

(** X26.  The titles the scanner keeps are exactly those that end in
    [.jpg], [.jpeg] or [.png], in any mix of upper and lower case, possibly
    followed by one final newline: a title qualifies when it is a stem
    followed by such an extension, and only then. *)
Theorem image_titles (title : string) :
  EXTENSIONS_search title = true
  ↔ ∃ stem ext,
      (title = stem +:+ ext ∨ title = (stem +:+ ext) +:+ Str.newline)
      ∧ Str.lower ext ∈ [".jpg"; ".jpeg"; ".png"].
Proof.
  unfold EXTENSIONS_search. split.
  - intros Hsearch.
    assert (Hsuffix : ∃ suffix,
      suffix ∈ [".jpg"; ".jpeg"; ".png"]
      ∧ Str.endswith (Str.lower (Str.drop_final_newline title)) suffix = true).
    { apply orb_true_iff in Hsearch as [Hsearch|Hsearch];
        [apply orb_true_iff in Hsearch as [Hsearch|Hsearch]|].
      - exists ".jpg". split; [|done]. by repeat constructor.
      - exists ".jpeg". split; [|done]. by repeat constructor.
      - exists ".png". split; [|done]. by repeat constructor. }
    destruct Hsuffix as (suffix & Hin & [a Ha]%endswith_iff).
    apply str_map_app_inv in Ha as (stem & ext & Hdrop & _ & Hext).
    exists stem, ext. split; [|by rewrite <- Hext in Hin].
    destruct (drop_final_newline_cases title) as [Htitle|[Htitle _]].
    + right. by rewrite <- Hdrop.
    + left. by rewrite <- Hdrop.
  - intros (stem & ext & Htitle & Hext).
    assert (Hdrop : Str.drop_final_newline title = stem +:+ ext).
    { destruct Htitle as [->| ->]; [|apply drop_final_newline_app].
      destruct (drop_final_newline_cases (stem +:+ ext)) as [Hcase|[Hcase _]]; [|done].
      pose proof (suffix_not_newline stem ext Hext) as Hnot.
      assert (Str.endswith (stem +:+ ext) Str.newline = true); [|congruence].
      apply endswith_iff. by eexists. }
    rewrite Hdrop. unfold Str.lower in *. rewrite str_map_app.
    set (e := Str.map Str.lower_ascii ext) in *.
    assert (Hends : Str.endswith (Str.map Str.lower_ascii stem +:+ e) e = true)
      by (apply endswith_iff; by eexists).
    clearbody e.
    apply elem_of_cons in Hext as [->|Hext]; [by rewrite Hends|].
    apply elem_of_cons in Hext as [->|Hext]; [rewrite Hends; by rewrite orb_true_r|].
    apply list_elem_of_singleton in Hext as ->.
    rewrite Hends. by rewrite orb_true_r.
Qed.

(** X27.  [sanitize_filename] changes a name only where it holds one of
    the nine invalid characters: a name without any is returned as it is,
    and no other name is; in particular sanitizing twice is the same as
    sanitizing once. *)
Theorem sanitize_fixpoints (name : string) :
  (sanitize_filename name = name
   ↔ Str.forallb (λ c, negb (is_invalid c)) name = true)
  ∧ sanitize_filename (sanitize_filename name) = sanitize_filename name.
Proof.
  assert (Hfix : ∀ s, Str.forallb (λ c, negb (is_invalid c)) s = true →
                      sanitize_filename s = s).
  { unfold sanitize_filename. induction s as [|c s IH]; simpl; [done|].
    intros [Hc Hs]%andb_true_iff. apply negb_true_iff in Hc. by rewrite Hc, IH. }
  split; [split|].
  - intros <-. apply sanitize_clean.
  - apply Hfix.
  - apply Hfix, sanitize_clean.
Qed.

(** X28.  With the attempt cap of the program, 5, an enumeration ends as
    soon as the metadata endpoint stops answering: every page costs at
    least one answer, so that with more fuel than answers left
    [get_category_members] returns, having put no answer back. *)
Theorem enumeration_terminates (fuel : nat) (category cmtype : string) (w : world) :
  (length (api w) < fuel)%nat →
  ∃ results w',
    get_category_members fuel category cmtype 5 w = Some (results, w')
    ∧ (length (api w') ≤ length (api w))%nat.
Proof. apply get_members_loop_returns. Qed.

Lemma enumeration_terminates_witness :
  ∃ results w',
    get_category_members 9 "Cat" "file" 5 Sample.flaky = Some (results, w')
    ∧ (length (api w') ≤ length (api Sample.flaky))%nat.
Proof. apply enumeration_terminates. vm_compute. lia. Defined.
